(** * Shapes-graph model of rdf-validate-shacl (src/shapes-graph.js)

    A shallow embedding of the ShapesGraph / ConstraintComponent /
    Constraint / Shape classes and of the path compiler toRDFQueryPath,
    together with the properties the design document states about them.

    JavaScript objects used as dictionaries (parametersMap, shapes,
    optionals, parameterValues) are finite maps keyed by strings; keys
    inherited from Object.prototype are outside this model.  Objects with
    identity (Shape instances) live in an explicit object store and are
    referred to by their address. *)

From Stdlib Require Import Ascii.
From stdpp Require Import gmap strings list fin_maps.

(** ** RDF terms and graphs *)

(** The [termType] discriminator of an RDF/JS term.  ['Collection'] is the
    extra kind the path compiler tests for. *)
Inductive TermType :=
  | NamedNode | BlankNode | Literal | Variable_ | DefaultGraph | Collection.

#[global] Instance TermType_eq_dec : EqDecision TermType.
Proof. solve_decision. Defined.

(** A term is compared by kind and value. *)
Record Term := mkTerm { termType : TermType; value : string }.

#[global] Instance Term_eq_dec : EqDecision Term.
Proof. solve_decision. Defined.

Record Triple := mkTriple { subject : Term; predicate : Term; object : Term }.

#[global] Instance Triple_eq_dec : EqDecision Triple.
Proof. solve_decision. Defined.

(** A graph is the sequence of its triples, in iteration order. *)
Definition Graph := list Triple.

Definition iri (v : string) : Term := mkTerm NamedNode v.
Definition bnode (v : string) : Term := mkTerm BlankNode v.
Definition lit (v : string) : Term := mkTerm Literal v.

(** ** Vocabulary (./namespaces) *)

Module sh.
Definition ns : string := "http://www.w3.org/ns/shacl#".
Definition ConstraintComponent := iri (ns +:+ "ConstraintComponent").
Definition Violation := iri (ns +:+ "Violation").
Definition parameter := iri (ns +:+ "parameter").
Definition path := iri (ns +:+ "path").
Definition optional := iri (ns +:+ "optional").
Definition severity := iri (ns +:+ "severity").
Definition deactivated := iri (ns +:+ "deactivated").
Definition target := iri (ns +:+ "target").
Definition targetClass := iri (ns +:+ "targetClass").
Definition targetNode := iri (ns +:+ "targetNode").
Definition targetSubjectsOf := iri (ns +:+ "targetSubjectsOf").
Definition targetObjectsOf := iri (ns +:+ "targetObjectsOf").
Definition alternativePath := iri (ns +:+ "alternativePath").
Definition zeroOrMorePath := iri (ns +:+ "zeroOrMorePath").
Definition oneOrMorePath := iri (ns +:+ "oneOrMorePath").
Definition zeroOrOnePath := iri (ns +:+ "zeroOrOnePath").
Definition inversePath := iri (ns +:+ "inversePath").
Definition nodeValidator := iri (ns +:+ "nodeValidator").
Definition propertyValidator := iri (ns +:+ "propertyValidator").
Definition validator := iri (ns +:+ "validator").
End sh.

Module rdf.
Definition ns : string := "http://www.w3.org/1999/02/22-rdf-syntax-ns#".
Definition type := iri (ns +:+ "type").
Definition first := iri (ns +:+ "first").
Definition rest := iri (ns +:+ "rest").
Definition nil := iri (ns +:+ "nil").
End rdf.

Module rdfs.
Definition ns : string := "http://www.w3.org/2000/01/rdf-schema#".
Definition Class := iri (ns +:+ "Class").
End rdfs.

(** The literal the query layer builds from the string ['true']. *)
Definition true_literal : Term := lit "true".

(** ** Graph query interface (./rdfquery) *)

(** Modelled from the spec: a pattern position of the graph query
    interface; [None] is a wildcard or a fresh variable, [Some t] a bound
    term, compared by kind and value. *)
Definition matches (pat : option Term) (t : Term) : bool :=
  match pat with
  | None => true
  | Some x => bool_decide (x = t)
  end.

(** Modelled from the spec: a triple matches a pattern when its three
    positions do. *)
Definition matchTriple (s p o : option Term) (t : Triple) : bool :=
  matches s (subject t) && matches p (predicate t) && matches o (object t).

(** Modelled from the spec: the pattern match of the graph query interface,
    "(subject|wildcard, predicate|wildcard, object|wildcard) -> iterable of
    bindings"; the solutions are the matching triples in graph order. *)
Definition query_match (g : Graph) (s p o : option Term) : list Triple :=
  filter (λ t, matchTriple s p o t) g.

(** Modelled from the spec: the "has any solution" boolean form. *)
Definition hasSolution (sols : list Triple) : bool :=
  match sols with [] => false | _ :: _ => true end.

(** Modelled from the spec: the "get all bound terms for a variable as a
    list" form ([getNodeArray]), for a variable in object position. *)
Definition getObjects (g : Graph) (s p : Term) : list Term :=
  object <$> query_match g (Some s) (Some p) None.

(** Modelled from the spec: the same form for a variable in subject
    position. *)
Definition getSubjects (g : Graph) (p : Term) (o : option Term) : list Term :=
  subject <$> query_match g None (Some p) o.

(** Modelled from the spec: the "get single bound term for a variable" form
    ([getNode], and [getObject] of RDFQueryUtil): the first solution, if any. *)
Definition getObject (g : Graph) (s p : Term) : option Term :=
  head (getObjects g s p).

(** ** NodeSet (./node-set) *)

(** Modelled from the spec: NodeSet, "a deduplicating ... collection of
    terms; supports union, membership test, and conversion to an ordered
    sequence".  The sequence keeps first-insertion order. *)
Module NodeSet.
Definition t := list Term.
(** [new NodeSet()] *)
Definition empty : t := [].
(** Membership, by kind and value. *)
Definition has (s : t) (x : Term) : bool := bool_decide (x ∈ s).
(** Adds a term unless it is present. *)
Definition add (s : t) (x : Term) : t := if has s x then s else s ++ [x].
(** Union with the terms of a list, added in order. *)
Definition addAll (s : t) (xs : list Term) : t := foldl add s xs.
(** [[...set]] *)
Definition toArray (s : t) : list Term := s.
End NodeSet.

(** ** Type-instance lookup and local names (./rdfquery/util, ./rdfquery) *)

(** The two type-instance helpers of RDFQueryUtil are taken as an
    interface: every result below holds for any implementation. *)
Class RDFQueryUtil := {
  getInstancesOf : Graph → Term → list Term;
  isInstanceOf : Graph → Term → Term → bool
}.

(** Modelled from the spec: "type-instance lookup", read as the direct
    rdf:type assertions of the graph.  Used to run the model on examples. *)
Definition directTyping : RDFQueryUtil := {|
  getInstancesOf g c := NodeSet.addAll NodeSet.empty (getSubjects g rdf.type (Some c));
  isInstanceOf g x c := hasSolution (query_match g (Some x) (Some rdf.type) (Some c))
|}.

(** ** ConstraintComponent *)

Record ConstraintComponent := mkComponent {
  node : Term;
  parameters : list Term;
  parameterNodes : list Term;
  requiredParameters : list Term;
  optionals : gmap string bool
}.

#[global] Instance ConstraintComponent_eq_dec : EqDecision ConstraintComponent.
Proof. solve_decision. Defined.

(** The solutions of
    [match(node, sh:parameter, ?parameter).match(?parameter, sh:path, ?path)]
    as pairs (parameter, path), in encounter order. *)
Definition parameterSolutions (g : Graph) (n : Term) : list (Term * Term) :=
  prm ← getObjects g n sh.parameter;
  (λ pth, (prm, pth)) <$> getObjects g prm sh.path.

(** One iteration of the [forEach] callback of the constructor. *)
Definition addParameter (g : Graph) (c : ConstraintComponent) (sol : Term * Term)
  : ConstraintComponent :=
  let '(prm, pth) := sol in
  if hasSolution (query_match g (Some prm) (Some sh.optional) (Some true_literal))
  then {| node := node c;
          parameters := parameters c ++ [pth];
          parameterNodes := parameterNodes c ++ [prm];
          requiredParameters := requiredParameters c;
          optionals := <[value pth := true]> (optionals c) |}
  else {| node := node c;
          parameters := parameters c ++ [pth];
          parameterNodes := parameterNodes c ++ [prm];
          requiredParameters := requiredParameters c ++ [pth];
          optionals := optionals c |}.

(** [new ConstraintComponent(node, context)], without the validator slots
    (they come from the validators registry and play no part below). *)
Definition newConstraintComponent (g : Graph) (n : Term) : ConstraintComponent :=
  foldl (addParameter g) (mkComponent n [] [] [] ∅) (parameterSolutions g n).

Definition getParameters (c : ConstraintComponent) : list Term := parameters c.

(** [this.optionals[parameterURI]], read for its truthiness. *)
Definition isOptional (c : ConstraintComponent) (parameterURI : string) : bool :=
  default false (optionals c !! parameterURI).

(** The loop of [isComplete], over the remaining parameters. *)
Fixpoint isCompleteFrom (g : Graph) (c : ConstraintComponent) (shapeNode : Term)
    (ps : list Term) : bool :=
  match ps with
  | [] => true
  | prm :: rest =>
      if negb (isOptional c (value prm)) then
        if negb (hasSolution (query_match g (Some shapeNode) (Some prm) None))
        then false
        else isCompleteFrom g c shapeNode rest
      else isCompleteFrom g c shapeNode rest
  end.

Definition isComplete (g : Graph) (c : ConstraintComponent) (shapeNode : Term) : bool :=
  isCompleteFrom g c shapeNode (parameters c).

(** ** Constraint, Shape and ShapesGraph *)

Record Constraint := mkConstraint {
  (** [this.shape], the owning Shape, named by its shape node *)
  shape : Term;
  component : ConstraintComponent;
  (** [undefined] is [None] *)
  paramValue : option Term;
  parameterValues : gmap string Term
}.

#[global] Instance Constraint_eq_dec : EqDecision Constraint.
Proof. solve_decision. Defined.

Record Shape := mkShape {
  severity : Term;
  deactivated : bool;
  (** absent for a node shape *)
  path : option Term;
  shapeNode : Term;
  constraints : list Constraint
}.

#[global] Instance Shape_eq_dec : EqDecision Shape.
Proof. solve_decision. Defined.

(** Address of a Shape object in the object store. *)
Abbreviation ShapeRef := nat (only parsing).

Record ShapesGraph := mkShapesGraph {
  (** [context.$shapes] *)
  context_shapes : Graph;
  components : list ConstraintComponent;
  parametersMap : gmap string ConstraintComponent;
  (** the memo cache: keys are the values of the shape nodes *)
  shapes : gmap string ShapeRef;
  (** the Shape objects constructed so far, by address *)
  store : list Shape;
  shapeNodesWithConstraints : option (list Term);
  targetShapes : option (list ShapeRef)
}.

Section Model.
Context `{util : RDFQueryUtil}.
(** [RDFQuery.getLocalName], from the query layer. *)
Variable getLocalName : string → string.

(** One iteration of the parameter loop of the Constraint constructor. *)
Definition bindParameter (g : Graph) (shapeNode : Term) (paramValue : option Term)
    (parameterValues : gmap string Term) (param : Term) : gmap string Term :=
  let v := match paramValue with
           | Some v => Some v
           | None => getObject g shapeNode param
           end in
  match v with
  | Some v => <[getLocalName (value param) := v]> parameterValues
  | None => parameterValues
  end.

(** [new Constraint(shape, component, paramValue, rdfShapesGraph)] *)
Definition newConstraint (shapeNode : Term) (component : ConstraintComponent)
    (paramValue : option Term) (g : Graph) : Constraint :=
  {| shape := shapeNode;
     component := component;
     paramValue := paramValue;
     parameterValues :=
       foldl (bindParameter g shapeNode paramValue) ∅ (getParameters component) |}.


(** The callback the Shape constructor runs on every solution of
    [match(shapeNode, ?predicate, ?object)]; the state is
    [(this.constraints, handled)]. *)
Definition addConstraints (g : Graph) (pm : gmap string ConstraintComponent)
    (shapeNode : Term) (st : list Constraint * NodeSet.t) (sol : Triple)
    : list Constraint * NodeSet.t :=
  let '(cs, handled) := st in
  match pm !! value (predicate sol) with
  | Some component =>
      if negb (NodeSet.has handled (node component)) then
        let params := getParameters component in
        if bool_decide (length params = 1) then
          (cs ++ [newConstraint shapeNode component (Some (object sol)) g], handled)
        else if isComplete g component shapeNode then
          (cs ++ [newConstraint shapeNode component None g],
           NodeSet.add handled (node component))
        else st
      else st
  | None => st
  end.

(** [new Shape(context, shapeNode)]: of the context it reads the shapes
    graph and, through [getComponentWithParameter], the parameter index. *)
Definition newShape (g : Graph) (pm : gmap string ConstraintComponent)
    (shapeNode : Term) : Shape :=
  {| severity := default sh.Violation (getObject g shapeNode sh.severity);
     deactivated :=
       hasSolution (query_match g (Some shapeNode) (Some sh.deactivated) (Some true_literal));
     path := getObject g shapeNode sh.path;
     shapeNode := shapeNode;
     constraints :=
       fst (foldl (addConstraints g pm shapeNode) ([], NodeSet.empty)
                  (query_match g (Some shapeNode) None None)) |}.

Definition getConstraints (s : Shape) : list Constraint := constraints s.

Definition isPropertyShape (s : Shape) : bool :=
  match path s with Some _ => true | None => false end.

(** The parameter index built by the ShapesGraph constructor. *)
Definition registerComponent (m : gmap string ConstraintComponent)
    (c : ConstraintComponent) : gmap string ConstraintComponent :=
  foldl (λ m p, <[value p := c]> m) m (getParameters c).

Definition buildParametersMap (cs : list ConstraintComponent)
    : gmap string ConstraintComponent :=
  foldl registerComponent ∅ cs.

(** [new ShapesGraph(context)] *)
Definition newShapesGraph (g : Graph) : ShapesGraph :=
  let componentNodes := getInstancesOf g sh.ConstraintComponent in
  let components := newConstraintComponent g <$> componentNodes in
  {| context_shapes := g;
     components := components;
     parametersMap := buildParametersMap components;
     shapes := ∅;
     store := [];
     shapeNodesWithConstraints := None;
     targetShapes := None |}.

Definition getComponentWithParameter (sg : ShapesGraph) (parameter : Term)
    : option ConstraintComponent :=
  parametersMap sg !! value parameter.

(** [getShape]: returns the address of the Shape and the ShapesGraph
    after the call. *)
Definition getShape (sg : ShapesGraph) (shapeNode : Term) : ShapeRef * ShapesGraph :=
  match shapes sg !! value shapeNode with
  | Some r => (r, sg)
  | None =>
      let s := newShape (context_shapes sg) (parametersMap sg) shapeNode in
      let r := length (store sg) in
      (r, {| context_shapes := context_shapes sg;
             components := components sg;
             parametersMap := parametersMap sg;
             shapes := <[value shapeNode := r]> (shapes sg);
             store := store sg ++ [s];
             shapeNodesWithConstraints := shapeNodesWithConstraints sg;
             targetShapes := targetShapes sg |})
  end.

(** The NodeSet filled by the two loops of [getShapeNodesWithConstraints]. *)
Definition collectShapeNodes (g : Graph) (cs : list ConstraintComponent) : NodeSet.t :=
  foldl (λ set c,
           foldl (λ set p, NodeSet.addAll set (getSubjects g p None))
                 set (requiredParameters c))
        NodeSet.empty cs.

Definition getShapeNodesWithConstraints (sg : ShapesGraph) : list Term * ShapesGraph :=
  match shapeNodesWithConstraints sg with
  | Some l => (l, sg)
  | None =>
      let l := NodeSet.toArray (collectShapeNodes (context_shapes sg) (components sg)) in
      (l, {| context_shapes := context_shapes sg;
             components := components sg;
             parametersMap := parametersMap sg;
             shapes := shapes sg;
             store := store sg;
             shapeNodesWithConstraints := Some l;
             targetShapes := targetShapes sg |})
  end.

(** The condition of the [if] in [getShapesWithTarget]. *)
Definition hasTargetDeclaration (g : Graph) (shapeNode : Term) : bool :=
  isInstanceOf g shapeNode rdfs.Class
  || hasSolution (query_match g (Some shapeNode) (Some sh.targetClass) None)
  || hasSolution (query_match g (Some shapeNode) (Some sh.targetNode) None)
  || hasSolution (query_match g (Some shapeNode) (Some sh.targetSubjectsOf) None)
  || hasSolution (query_match g (Some shapeNode) (Some sh.targetObjectsOf) None)
  || hasSolution (query_match g (Some shapeNode) (Some sh.target) None).

(** One iteration of the loop of [getShapesWithTarget]; the state is
    [(this.targetShapes, this)]. *)
Definition addTargetShape (st : list ShapeRef * ShapesGraph) (shapeNode : Term)
    : list ShapeRef * ShapesGraph :=
  let '(acc, sg) := st in
  if hasTargetDeclaration (context_shapes sg) shapeNode then
    let '(r, sg') := getShape sg shapeNode in (acc ++ [r], sg')
  else st.

Definition getShapesWithTarget (sg : ShapesGraph) : list ShapeRef * ShapesGraph :=
  match targetShapes sg with
  | Some l => (l, sg)
  | None =>
      let '(cs, sg1) := getShapeNodesWithConstraints sg in
      let '(acc, sg2) := foldl addTargetShape ([], sg1) cs in
      (acc, {| context_shapes := context_shapes sg2;
               components := components sg2;
               parametersMap := parametersMap sg2;
               shapes := shapes sg2;
               store := store sg2;
               shapeNodesWithConstraints := shapeNodesWithConstraints sg2;
               targetShapes := Some acc |})
  end.

(** [getTargetNodes]: [g] is the shapes graph of the context. *)
Definition getTargetNodes (g : Graph) (s : Shape) (rdfDataGraph : Graph) : list Term :=
  let results := NodeSet.empty in
  let results :=
    if isInstanceOf g (shapeNode s) rdfs.Class
    then NodeSet.addAll results (getInstancesOf rdfDataGraph (shapeNode s))
    else results in
  let results :=
    foldl (λ results targetClass,
             NodeSet.addAll results (getInstancesOf rdfDataGraph targetClass))
          results (getObjects g (shapeNode s) sh.targetClass) in
  let results := NodeSet.addAll results (getObjects g (shapeNode s) sh.targetNode) in
  let results :=
    foldl (λ results predicate,
             NodeSet.addAll results (getSubjects rdfDataGraph predicate None))
          results (getObjects g (shapeNode s) sh.targetSubjectsOf) in
  let results :=
    foldl (λ results predicate,
             NodeSet.addAll results
               (object <$> query_match rdfDataGraph None (Some predicate) None))
          results (getObjects g (shapeNode s) sh.targetObjectsOf) in
  NodeSet.toArray results.

(** The public calls that change a ShapesGraph after its construction. *)
Inductive Call :=
  | CallGetShape (shapeNode : Term)
  | CallGetShapeNodesWithConstraints
  | CallGetShapesWithTarget.

Definition runCall (sg : ShapesGraph) (c : Call) : ShapesGraph :=
  match c with
  | CallGetShape n => (getShape sg n).2
  | CallGetShapeNodesWithConstraints => (getShapeNodesWithConstraints sg).2
  | CallGetShapesWithTarget => (getShapesWithTarget sg).2
  end.

(** The ShapesGraph built from [g] after a sequence of calls. *)
Definition afterCalls (g : Graph) (calls : list Call) : ShapesGraph :=
  foldl runCall (newShapesGraph g) calls.

End Model.

(** ** Path compiler *)

(** The value [toRDFQueryPath] returns: a NamedNode itself (direct
    predicate), an array (sequence), or an object with one of the keys
    [or], [zeroOrMore], [oneOrMore], [zeroOrOne], [inverse]. *)
#[warnings="-register-all"] Inductive RDFQueryPath :=
  | PathPredicate (p : Term)
  | PathSeq (paths : list RDFQueryPath)
  | PathOr (paths : list RDFQueryPath)
  | PathZeroOrMore (sub : RDFQueryPath)
  | PathOneOrMore (sub : RDFQueryPath)
  | PathZeroOrOne (sub : RDFQueryPath)
  | PathInverse (sub : RDFQueryPath).

Inductive Error :=
  (** [new Error('Unsupported SHACL path ' + shPath)] *)
  | UnsupportedSHACLPath (shPath : Term)
  (** a list node without rdf:first or rdf:rest *)
  | MalformedList (listNode : Term).

(** Outcome of a call that may throw; [OutOfFuel] is the model's bound on
    the recursion depth, not a behaviour of the program. *)
Inductive Result (A : Type) :=
  | Ok (a : A)
  | Throw (e : Error)
  | OutOfFuel.
Arguments Ok {A} a.
Arguments Throw {A} e.
Arguments OutOfFuel {A}.

Definition bindResult {A B} (r : Result A) (k : A → Result B) : Result B :=
  match r with
  | Ok a => k a
  | Throw e => Throw e
  | OutOfFuel => OutOfFuel
  end.

(** Runs [f] on the elements in order and stops at the first failure. *)
Fixpoint mapResult {A B} (f : A → Result B) (l : list A) : Result (list B) :=
  match l with
  | [] => Ok []
  | x :: l' => bindResult (f x) (λ y, bindResult (mapResult f l') (λ ys, Ok (y :: ys)))
  end.

(** Modelled from the spec: "RDF-list-to-sequence decoding" of the graph
    query interface (RDFQueryUtil.rdfListToArray), following rdf:rest from
    [listNode] to rdf:nil and collecting the rdf:first objects. *)
Fixpoint rdfListToArray (fuel : nat) (g : Graph) (listNode : Term) : Result (list Term) :=
  match fuel with
  | 0 => OutOfFuel
  | S fuel' =>
      if bool_decide (listNode = rdf.nil) then Ok []
      else match getObject g listNode rdf.first, getObject g listNode rdf.rest with
           | Some x, Some r =>
               bindResult (rdfListToArray fuel' g r) (λ xs, Ok (x :: xs))
           | _, _ => Throw (MalformedList listNode)
           end
  end.

(** [toRDFQueryPath($shapes, shPath)]; [fuel] bounds the nesting depth. *)
Fixpoint toRDFQueryPath (fuel : nat) (g : Graph) (shPath : Term) : Result RDFQueryPath :=
  match fuel with
  | 0 => OutOfFuel
  | S fuel' =>
      let compile := toRDFQueryPath fuel' g in
      let compileList (listNode : Term) : Result (list RDFQueryPath) :=
        bindResult (rdfListToArray fuel' g listNode) (mapResult compile) in
      if bool_decide (termType shPath = Collection) then
        bindResult (compileList shPath) (λ result, Ok (PathSeq result))
      else if bool_decide (termType shPath = NamedNode) then
        Ok (PathPredicate shPath)
      else if bool_decide (termType shPath = BlankNode) then
        match getObject g shPath rdf.first with
        | Some _ => bindResult (compileList shPath) (λ result, Ok (PathSeq result))
        | None =>
        match getObject g shPath sh.alternativePath with
        | Some alternativePath =>
            bindResult (compileList alternativePath) (λ result, Ok (PathOr result))
        | None =>
        match getObject g shPath sh.zeroOrMorePath with
        | Some zeroOrMorePath =>
            bindResult (compile zeroOrMorePath) (λ r, Ok (PathZeroOrMore r))
        | None =>
        match getObject g shPath sh.oneOrMorePath with
        | Some oneOrMorePath =>
            bindResult (compile oneOrMorePath) (λ r, Ok (PathOneOrMore r))
        | None =>
        match getObject g shPath sh.zeroOrOnePath with
        | Some zeroOrOnePath =>
            bindResult (compile zeroOrOnePath) (λ r, Ok (PathZeroOrOne r))
        | None =>
        match getObject g shPath sh.inversePath with
        | Some inversePath =>
            bindResult (compile inversePath) (λ r, Ok (PathInverse r))
        | None => Throw (UnsupportedSHACLPath shPath)
        end end end end end end
      else Throw (UnsupportedSHACLPath shPath)
  end.

(** ** Path traversal (./rdfquery) *)

(** State of a closure walk: the result set, the visited set, and the log
    of the nodes the walk was entered at, in call order. *)
Record WalkState := mkWalk {
  w_set : NodeSet.t;
  w_visited : NodeSet.t;
  w_calls : list Term
}.

Definition visitUnlessSeen (walk : Term → WalkState → option WalkState)
    (st : option WalkState) (x : Term) : option WalkState :=
  st ← st;
  if NodeSet.has (w_visited st) x then Some st else walk x st.

(** Modelled from the spec: the reachability closure behind zero-or-more
    and one-or-more, "repeated application until no new nodes are produced
    ... a node already visited along the current closure must not be
    revisited".  [step] evaluates the sub-path from one node; [fuel] bounds
    the depth of the walk. *)
Fixpoint walkPath (step : Term → option (list Term)) (fuel : nat)
    (subject : Term) (st : WalkState) : option WalkState :=
  match fuel with
  | 0 => None
  | S fuel' =>
      a ← step subject;
      foldl (visitUnlessSeen (walkPath step fuel'))
            (Some {| w_set := NodeSet.addAll (w_set st) a;
                     w_visited := NodeSet.add (w_visited st) subject;
                     w_calls := w_calls st ++ [subject] |})
            a
  end.

Definition emptyWalk : WalkState := mkWalk NodeSet.empty NodeSet.empty [].

(** Every term in subject or object position of a triple. *)
Definition graphNodes (g : Graph) : list Term :=
  t ← g; [subject t; object t].

(** Adds to [set] the values [f] yields, for an optional [set]. *)
Definition addValues (f : Term → option (list Term)) (set : option NodeSet.t)
    (x : Term) : option NodeSet.t :=
  s ← set; v ← f x; Some (NodeSet.addAll s v).

(** Modelled from the spec: the path-based traversal
    "(focusNode, compiledPath) -> list of Term" of the graph query
    interface, over the path expression variants of the data model:
    sequence stages feed each other left to right, an alternative is the
    union of its members, zero-or-one adds the start node, the two
    repetitions are closures, and the inverse of a path relates [y] to
    [x] when the path relates [x] to [y].  [None] is out of fuel. *)
Fixpoint evalPath (fuel : nat) (g : Graph) (p : RDFQueryPath) (subject : Term)
    : option (list Term) :=
  match p with
  | PathPredicate pr =>
      Some (NodeSet.addAll NodeSet.empty (getObjects g subject pr))
  | PathSeq paths =>
      foldl (λ s q, a ← s; foldl (addValues (evalPath fuel g q)) (Some NodeSet.empty) a)
            (Some [subject]) paths
  | PathOr paths =>
      foldl (λ s q, addValues (evalPath fuel g q) s subject) (Some NodeSet.empty) paths
  | PathZeroOrMore q =>
      st ← walkPath (evalPath fuel g q) fuel subject emptyWalk;
      Some (NodeSet.toArray (NodeSet.add (w_set st) subject))
  | PathOneOrMore q =>
      st ← walkPath (evalPath fuel g q) fuel subject emptyWalk;
      Some (NodeSet.toArray (w_set st))
  | PathZeroOrOne q =>
      v ← evalPath fuel g q subject;
      Some (NodeSet.toArray (NodeSet.add (NodeSet.addAll NodeSet.empty v) subject))
  | PathInverse q =>
      foldl (λ s x, s ← s; v ← evalPath fuel g q x;
                    Some (if bool_decide (subject ∈ v) then NodeSet.add s x else s))
            (Some NodeSet.empty) (graphNodes g ++ [subject])
  end.

(** The outcome of a traversal as an outcome of its caller. *)
Definition traversalResult (o : option (list Term)) : Result (list Term) :=
  match o with Some l => Ok l | None => OutOfFuel end.

(** [getValueNodes]: [g] is the shapes graph of the context. *)
Definition getValueNodes (fuel : nat) (g : Graph) (s : Shape) (focusNode : Term)
    (rdfDataGraph : Graph) : Result (list Term) :=
  match path s with
  | Some shPath =>
      bindResult (toRDFQueryPath fuel g shPath)
        (λ p, traversalResult (evalPath fuel rdfDataGraph p focusNode))
  | None => Ok [focusNode]
  end.

(** ** Specification-side notions *)

(** [c] declares a parameter whose IRI is [v]. *)
Definition declaresParameter (v : string) (c : ConstraintComponent) : Prop :=
  v ∈ value <$> parameters c.

#[global] Instance declaresParameter_dec v c : Decision (declaresParameter v c).
Proof. unfold declaresParameter. apply _. Defined.


(** The shape node [s] has a triple [(s, p, _)] in [g]. *)
Definition hasTriple (g : Graph) (s p : Term) : Prop :=
  Exists (λ t, subject t = s ∧ predicate t = p) g.

#[global] Instance hasTriple_dec g s p : Decision (hasTriple g s p).
Proof. unfold hasTriple. apply _. Defined.









(** An ordered list: a Collection term or a blank node with an rdf:first. *)
Definition isOrderedList (g : Graph) (t : Term) : Prop :=
  termType t = Collection ∨ (termType t = BlankNode ∧ hasTriple g t rdf.first).

(** A blank node bearing one of the five path markers. *)
Definition bearsPathMarker (g : Graph) (t : Term) : Prop :=
  termType t = BlankNode
  ∧ (hasTriple g t sh.alternativePath ∨ hasTriple g t sh.zeroOrMorePath
     ∨ hasTriple g t sh.oneOrMorePath ∨ hasTriple g t sh.zeroOrOnePath
     ∨ hasTriple g t sh.inversePath).

(** One application of the sub-path behind a closure: [step] yields [y]
    from [x]. *)
Definition stepEdge (step : Term → option (list Term)) (x y : Term) : Prop :=
  ∃ l, step x = Some l ∧ y ∈ l.

(** The data graph has the triple [(x, p, y)]. *)
Definition predicateEdge (g : Graph) (p : Term) (x y : Term) : Prop :=
  mkTriple x p y ∈ g.

(** ** Invariants *)



(** Cache and object store agree: every cache entry points to a Shape
    whose node has the key as value, and every Shape object is the cache
    entry of its node's value and is what the constructor returns for
    its node. *)
Definition cacheInv `{util : RDFQueryUtil} (getLocalName : string → string)
    (g : Graph) (sg : ShapesGraph) : Prop :=
  context_shapes sg = g
  ∧ parametersMap sg = parametersMap (newShapesGraph g)
  ∧ (∀ k r, shapes sg !! k = Some r →
            ∃ S, store sg !! r = Some S ∧ value (shapeNode S) = k)
  ∧ (∀ r S, store sg !! r = Some S →
            shapes sg !! value (shapeNode S) = Some r
            ∧ S = newShape getLocalName g (parametersMap sg) (shapeNode S)).

(** The list [getShapeNodesWithConstraints] computes on a ShapesGraph
    built from [g]. *)
Definition shapeNodesOf `{util : RDFQueryUtil} (g : Graph) : list Term :=
  NodeSet.toArray (collectShapeNodes g (components (newShapesGraph g))).

(** The nodes a Shape may have been requested for: the shape nodes with
    constraints and the arguments of the [getShape] calls. *)
Definition requestedBy (c : Call) : list Term :=
  match c with
  | CallGetShape n => [n]
  | _ => []
  end.

Definition requestedNodes `{util : RDFQueryUtil} (g : Graph) (calls : list Call)
    : list Term :=
  shapeNodesOf g ++ (calls ≫= requestedBy).

(** The lazily computed lists agree with the shapes graph: the cached shape
    nodes are those with constraints, the cached target shapes hold the
    cache entry of every shape node with a target declaration, and every
    Shape object was constructed for a requested node. *)
Definition lazyInv `{util : RDFQueryUtil} (getLocalName : string → string)
    (g : Graph) (requested : list Term) (sg : ShapesGraph) : Prop :=
  cacheInv getLocalName g sg
  ∧ components sg = components (newShapesGraph g)
  ∧ (∀ l, shapeNodesWithConstraints sg = Some l → l = shapeNodesOf g)
  ∧ (∀ l, targetShapes sg = Some l →
       ∀ n, n ∈ shapeNodesOf g → hasTargetDeclaration g n = true →
            ∃ r, r ∈ l ∧ shapes sg !! value n = Some r)
  ∧ (∀ r S, store sg !! r = Some S → shapeNode S ∈ requested).

(** State of the loop of [getShapesWithTarget] after the shape nodes [pre]. *)
Definition targetLoopInv `{util : RDFQueryUtil} (getLocalName : string → string)
    (g : Graph) (requested : list Term) (pre : list Term)
    (st : list ShapeRef * ShapesGraph) : Prop :=
  cacheInv getLocalName g st.2
  ∧ components st.2 = components (newShapesGraph g)
  ∧ shapeNodesWithConstraints st.2 = Some (shapeNodesOf g)
  ∧ targetShapes st.2 = None
  ∧ (∀ r S, store st.2 !! r = Some S → shapeNode S ∈ requested)
  ∧ (∀ n, n ∈ pre → hasTargetDeclaration g n = true →
          ∃ r, r ∈ st.1 ∧ shapes st.2 !! value n = Some r).

(** Number of nodes of [U] not yet visited: the walk's variant. *)
Definition unvisited (U : list Term) (vis : NodeSet.t) : nat :=
  length (filter (λ x, x ∉ vis) U).

(** How a walk entered at the nodes [roots] changes the state. *)
Definition grows (step : Term → option (list Term)) (U : list Term)
    (st st' : WalkState) (roots : list Term) : Prop :=
  (∀ x, x ∈ w_visited st → x ∈ w_visited st')
  ∧ (∀ v, v ∈ w_visited st' → v ∉ w_visited st →
          v ∈ U ∧ ∃ x, x ∈ roots ∧ rtc (stepEdge step) x v)
  ∧ (∀ v y, v ∈ w_visited st' → v ∉ w_visited st → stepEdge step v y →
            y ∈ w_visited st' ∧ y ∈ w_set st')
  ∧ (∀ y, y ∈ w_set st → y ∈ w_set st')
  ∧ (∀ y, y ∈ w_set st' → y ∉ w_set st →
          ∃ v, v ∈ w_visited st' ∧ (v ∉ w_visited st) ∧ stepEdge step v y)
  ∧ (∃ l, w_calls st' = w_calls st ++ l ∧ NoDup l
          ∧ ∀ x, x ∈ l ↔ x ∈ w_visited st' ∧ x ∉ w_visited st)
  ∧ (NoDup (w_set st) → NoDup (w_set st')).


(** ** Validator slots of a ConstraintComponent *)

(** An entry of the validators registry: a function, known by its name,
    and an optional message. *)
Record Validator := mkValidator {
  func_name : string;
  message : option string
}.

(** The registry (./validators-registry) is a table from the IRI of a
    component to its validators by type; it is a parameter of the functions
    below. *)
Abbreviation ValidatorsRegistry := (gmap string (gmap string Validator)) (only parsing).

(** [new ValidationFunction(context, funcName, parameters, func)], as the
    arguments it is constructed from. *)
Record ValidationFunction := mkValidationFunction {
  vf_funcName : string;
  vf_parameters : list Term
}.

(** [s.split(sep)] for a one-character separator. *)
Fixpoint splitOn (sep : Ascii.ascii) (s : string) : list string :=
  match s with
  | EmptyString => [EmptyString]
  | String c s' =>
      if Ascii.eqb c sep then EmptyString :: splitOn sep s'
      else match splitOn sep s' with
           | [] => [String c EmptyString]
           | h :: t => String c h :: t
           end
  end.

(** [predicate.value.split('#').slice(-1)[0]] *)
Definition validatorTypeOf (predicate : Term) : string :=
  default EmptyString (last (splitOn "#"%char (value predicate))).

(** [findValidator(validatorType)] *)
Definition findValidator (registry : ValidatorsRegistry) (c : ConstraintComponent)
    (validatorType : string) : option Validator :=
  constraintValidators ← registry !! value (node c);
  constraintValidators !! validatorType.

(** [findValidationFunction(predicate)] *)
Definition findValidationFunction (registry : ValidatorsRegistry)
    (c : ConstraintComponent) (predicate : Term) : option ValidationFunction :=
  match findValidator registry c (validatorTypeOf predicate) with
  | None => None
  | Some validator => Some (mkValidationFunction (func_name validator) (parameters c))
  end.

(** The four validator fields the ConstraintComponent constructor sets
    after the parameters; a flag that was never set is [false]. *)
Record ValidatorSlots := mkSlots {
  nodeValidationFunction : option ValidationFunction;
  nodeValidationFunctionGeneric : bool;
  propertyValidationFunction : option ValidationFunction;
  propertyValidationFunctionGeneric : bool
}.

(** One slot: the explicit validator, else the generic one with the flag. *)
Definition resolveSlot (registry : ValidatorsRegistry) (c : ConstraintComponent)
    (predicate : Term) : option ValidationFunction * bool :=
  match findValidationFunction registry c predicate with
  | Some f => (Some f, false)
  | None => (findValidationFunction registry c sh.validator, true)
  end.

(** Lines 154 to 163 of the constructor. *)
Definition newValidatorSlots (registry : ValidatorsRegistry) (c : ConstraintComponent)
    : ValidatorSlots :=
  let '(nodeF, nodeG) := resolveSlot registry c sh.nodeValidator in
  let '(propertyF, propertyG) := resolveSlot registry c sh.propertyValidator in
  mkSlots nodeF nodeG propertyF propertyG.

(** Truthiness of [validator.message]: a non-empty string. *)
Definition messageList (m : option string) : list string :=
  match m with
  | Some EmptyString | None => []
  | Some msg => [msg]
  end.

(** [getMessages(shape)], on the slots the constructor has set. *)
Definition getMessages (registry : ValidatorsRegistry) (c : ConstraintComponent)
    (slots : ValidatorSlots) (s : Shape) : list string :=
  let generic := if isPropertyShape s then propertyValidationFunctionGeneric slots
                 else nodeValidationFunctionGeneric slots in
  let validatorType :=
    if generic then "validator"
    else if isPropertyShape s then "propertyValidator" else "nodeValidator" in
  match findValidator registry c validatorType with
  | None => []
  | Some validator => messageList (message validator)
  end.

(** ** Further specification-side notions *)

(** The parameter node [prm] of a solution is marked optional. *)
Definition markedOptional (g : Graph) (prm : Term) : Prop :=
  mkTriple prm sh.optional true_literal ∈ g.

#[global] Instance markedOptional_dec g prm : Decision (markedOptional g prm).
Proof. unfold markedOptional. apply _. Defined.


(** The predicate leaves of a compiled path. *)
Fixpoint pathLeaves (p : RDFQueryPath) : list Term :=
  match p with
  | PathPredicate pr => [pr]
  | PathSeq paths => paths ≫= pathLeaves
  | PathOr paths => paths ≫= pathLeaves
  | PathZeroOrMore q => pathLeaves q
  | PathOneOrMore q => pathLeaves q
  | PathZeroOrOne q => pathLeaves q
  | PathInverse q => pathLeaves q
  end.





(** The term [toRDFQueryPath] recurses on for a blank node that is no list
    and has no alternative path: the object of its zero-or-more,
    one-or-more, zero-or-one or inverse marker, in the order the code
    tests them. *)
Definition unarySubPath (g : Graph) (shPath : Term) : option Term :=
  if bool_decide (termType shPath = BlankNode) then
    match getObject g shPath rdf.first, getObject g shPath sh.alternativePath with
    | None, None =>
        match getObject g shPath sh.zeroOrMorePath with
        | Some t => Some t
        | None =>
        match getObject g shPath sh.oneOrMorePath with
        | Some t => Some t
        | None =>
        match getObject g shPath sh.zeroOrOnePath with
        | Some t => Some t
        | None => getObject g shPath sh.inversePath
        end end end
    | _, _ => None
    end
  else None.



(** ** Example graphs *)

Module Examples.
Definition ex (local : string) : Term := iri ("http://example.org/" +:+ local).
Definition isComponent (c : Term) : Triple := mkTriple c rdf.type sh.ConstraintComponent.

(** A shapes graph with a one-parameter component (ex:min), a
    two-parameter component (ex:lo, ex:hi) and a shape node that asserts
    ex:min twice, ex:lo once, ex:hi never, and has a generic target. *)
Definition shapesGraph : Graph :=
  [ isComponent (ex "OneComp");
    mkTriple (ex "OneComp") sh.parameter (bnode "p1");
    mkTriple (bnode "p1") sh.path (ex "min");
    isComponent (ex "TwoComp");
    mkTriple (ex "TwoComp") sh.parameter (bnode "p2");
    mkTriple (bnode "p2") sh.path (ex "lo");
    mkTriple (ex "TwoComp") sh.parameter (bnode "p3");
    mkTriple (bnode "p3") sh.path (ex "hi");
    mkTriple (ex "S") (ex "min") (lit "1");
    mkTriple (ex "S") (ex "lo") (lit "0");
    mkTriple (ex "S") (ex "min") (lit "2");
    mkTriple (ex "S") sh.target (bnode "t") ].

Definition oneComp : ConstraintComponent := newConstraintComponent shapesGraph (ex "OneComp").
Definition twoComp : ConstraintComponent := newConstraintComponent shapesGraph (ex "TwoComp").

(** Two components that declare the same parameter, ex:min. *)
Definition clashGraph : Graph :=
  [ isComponent (ex "First");
    mkTriple (ex "First") sh.parameter (bnode "f");
    mkTriple (bnode "f") sh.path (ex "min");
    isComponent (ex "Second");
    mkTriple (ex "Second") sh.parameter (bnode "s");
    mkTriple (bnode "s") sh.path (ex "min") ].


(** Two shapes that reference each other through a one-parameter
    component (ex:node). *)
Definition cyclicShapes : Graph :=
  [ isComponent (ex "NodeComp");
    mkTriple (ex "NodeComp") sh.parameter (bnode "p");
    mkTriple (bnode "p") sh.path (ex "node");
    mkTriple (ex "A") (ex "node") (ex "B");
    mkTriple (ex "B") (ex "node") (ex "A") ].

(** The scenario of the design document: a property shape on ex:name
    targeting ex:Person, and two persons, one of them named. *)
Definition personShapes : Graph :=
  [ mkTriple (ex "PersonShape") sh.targetClass (ex "Person");
    mkTriple (ex "PersonShape") sh.path (ex "name") ].

Definition personData : Graph :=
  [ mkTriple (ex "alice") rdf.type (ex "Person");
    mkTriple (ex "bob") rdf.type (ex "Person");
    mkTriple (ex "alice") (ex "name") (lit "Alice") ].

(** A data graph with a cycle through ex:knows. *)
Definition knowsCycle : Graph :=
  [ mkTriple (ex "alice") (ex "knows") (ex "bob");
    mkTriple (ex "bob") (ex "knows") (ex "carol");
    mkTriple (ex "carol") (ex "knows") (ex "alice");
    mkTriple (ex "dave") (ex "knows") (ex "alice") ].

(** A path term [_:z sh:zeroOrMorePath [ sh:inversePath ex:knows ]]. *)
Definition pathGraph : Graph :=
  [ mkTriple (bnode "z") sh.zeroOrMorePath (bnode "i");
    mkTriple (bnode "i") sh.inversePath (ex "knows");
    mkTriple (bnode "empty") (ex "other") (ex "knows") ].

(** A two-parameter component (ex:lo required, ex:hi optional) and a shape
    node that asserts ex:lo twice, ex:hi never, and declares a target node. *)
Definition rangeShapes : Graph :=
  [ isComponent (ex "Range");
    mkTriple (ex "Range") sh.parameter (bnode "lo");
    mkTriple (bnode "lo") sh.path (ex "lo");
    mkTriple (ex "Range") sh.parameter (bnode "hi");
    mkTriple (bnode "hi") sh.path (ex "hi");
    mkTriple (bnode "hi") sh.optional true_literal;
    mkTriple (ex "R") (ex "lo") (lit "0");
    mkTriple (ex "R") (ex "lo") (lit "1");
    mkTriple (ex "R") sh.targetNode (ex "x") ].

Definition rangeComp : ConstraintComponent := newConstraintComponent rangeShapes (ex "Range").

(** A path definition that loops:
    [_:a sh:zeroOrMorePath _:b] and [_:b sh:inversePath _:a]. *)
Definition loopPath : Graph :=
  [ mkTriple (bnode "a") sh.zeroOrMorePath (bnode "b");
    mkTriple (bnode "b") sh.inversePath (bnode "a") ].

(** A registry with a generic validator for ex:OneComp and both a node and
    a generic validator for ex:TwoComp. *)
Definition registry : gmap string (gmap string Validator) :=
  {[ value (ex "OneComp") := {[ "validator" := mkValidator "validateOne" (Some "one") ]};
     value (ex "TwoComp") :=
       {[ "nodeValidator" := mkValidator "validateTwoNode" None;
          "validator" := mkValidator "validateTwo" (Some "two") ]} ]}.
End Examples.

(** * Properties *)

(** ** The query layer *)

Lemma matches_Some x t : matches (Some x) t = true ↔ x = t.
Proof. simpl. apply bool_decide_eq_true. Qed.

Lemma elem_of_query_match g s p o t :
  t ∈ query_match g s p o ↔ t ∈ g ∧ matchTriple s p o t = true.
Proof.
  unfold query_match. rewrite list_elem_of_filter, Is_true_true. tauto.
Qed.

Lemma hasSolution_true sols : hasSolution sols = true ↔ ∃ t, t ∈ sols.
Proof.
  destruct sols as [|t sols]; simpl; split; try done.
  - intros [t Ht]. by apply not_elem_of_nil in Ht.
  - intros _. exists t. apply list_elem_of_here.
Qed.


Lemma hasSolution_outgoing g s p :
  hasSolution (query_match g (Some s) (Some p) None) = true ↔ hasTriple g s p.
Proof.
  rewrite hasSolution_true. unfold hasTriple. rewrite Exists_exists.
  apply exist_proper. intros t.
  rewrite elem_of_query_match. unfold matchTriple.
  rewrite !andb_true_iff, !matches_Some. simpl. intuition congruence.
Qed.

Lemma elem_of_getObjects g s p o :
  o ∈ getObjects g s p ↔ mkTriple s p o ∈ g.
Proof.
  unfold getObjects. rewrite list_elem_of_fmap. split.
  - intros ([s' p' o'] & -> & Ht). apply elem_of_query_match in Ht as [Ht Hm].
    unfold matchTriple in Hm. rewrite !andb_true_iff, !matches_Some in Hm.
    simpl in Hm. by destruct Hm as [[-> ->] _].
  - intros Ht. exists (mkTriple s p o). split; [done|].
    apply elem_of_query_match. split; [done|]. unfold matchTriple. simpl.
    by rewrite !bool_decide_eq_true_2.
Qed.

(** ** The parameter index *)




Section ParameterIndex.
Context `{util : RDFQueryUtil}.


End ParameterIndex.

(** ** Completeness of a component on a shape node *)



(** ** Construction of the components *)



(** A parameter that is not optional was pushed to [requiredParameters]. *)
Lemma newConstraintComponent_required g n p :
  p ∈ parameters (newConstraintComponent g n) →
  isOptional (newConstraintComponent g n) (value p) = false →
  p ∈ requiredParameters (newConstraintComponent g n).
Proof.
  unfold newConstraintComponent.
  generalize (parameterSolutions g n). intros l.
  induction l as [|[prm pth] l IH] using rev_ind.
  - simpl. intros H. by apply not_elem_of_nil in H.
  - rewrite foldl_app. simpl. set (c := foldl (addParameter g) _ l) in *.
    unfold isOptional in *. destruct (hasSolution _); simpl.
    + intros [Hp| ->%list_elem_of_singleton]%elem_of_app.
      * destruct (decide (value pth = value p)) as [->|Hne].
        -- by rewrite lookup_insert_eq.
        -- rewrite lookup_insert_ne by done. by apply IH.
      * by rewrite lookup_insert_eq.
    + intros [Hp| ->%list_elem_of_singleton]%elem_of_app Hopt.
      * apply elem_of_app. left. by apply IH.
      * apply elem_of_app. right. apply list_elem_of_here.
Qed.

(** ** NodeSet *)

Lemma NodeSet_has_true s x : NodeSet.has s x = true ↔ x ∈ s.
Proof. unfold NodeSet.has. apply bool_decide_eq_true. Qed.

Lemma NodeSet_has_false s x : NodeSet.has s x = false ↔ x ∉ s.
Proof. unfold NodeSet.has. apply bool_decide_eq_false. Qed.

Lemma elem_of_NodeSet_add s x y : y ∈ NodeSet.add s x ↔ y ∈ s ∨ y = x.
Proof.
  unfold NodeSet.add. destruct (NodeSet.has s x) eqn:Hh.
  - apply NodeSet_has_true in Hh. split; [by left|]. by intros [?| ->].
  - rewrite elem_of_app, list_elem_of_singleton. done.
Qed.

Lemma NodeSet_add_NoDup s x : NoDup s → NoDup (NodeSet.add s x).
Proof.
  intros Hs. unfold NodeSet.add. destruct (NodeSet.has s x) eqn:Hh; [done|].
  apply NodeSet_has_false in Hh. apply NoDup_app. split_and!; [done| |apply NoDup_singleton].
  intros y Hy ->%list_elem_of_singleton. done.
Qed.

Lemma elem_of_NodeSet_addAll xs s y : y ∈ NodeSet.addAll s xs ↔ y ∈ s ∨ y ∈ xs.
Proof.
  unfold NodeSet.addAll. revert s. induction xs as [|x xs IH]; intros s; simpl.
  - rewrite elem_of_nil. tauto.
  - rewrite IH, elem_of_NodeSet_add, elem_of_cons. tauto.
Qed.

Lemma NodeSet_addAll_NoDup xs s : NoDup s → NoDup (NodeSet.addAll s xs).
Proof.
  unfold NodeSet.addAll. revert s. induction xs as [|x xs IH]; intros s Hs; simpl; [done|].
  by apply IH, NodeSet_add_NoDup.
Qed.


(** ** Construction of a Shape *)

Lemma foldl_prefix_ind {A B} (P : list B → A → Prop) (f : A → B → A) (a0 : A) (l : list B) :
  P [] a0 → (∀ pre x a, x ∈ l → P pre a → P (pre ++ [x]) (f a x)) → P l (foldl f a0 l).
Proof.
  intros H0 Hstep.
  assert (∀ l', (∀ x, x ∈ l' → x ∈ l) → P l' (foldl f a0 l')) as H; [|by apply H].
  induction l' as [|x l' IH] using rev_ind; intros Hsub; [done|].
  rewrite foldl_app. simpl. apply Hstep.
  - apply Hsub, elem_of_app. right. apply list_elem_of_here.
  - apply IH. intros y Hy. apply Hsub, elem_of_app. by left.
Qed.

Section ShapeConstruction.
Context `{util : RDFQueryUtil}.
Variable getLocalName : string → string.
Variable g : Graph.
Variable pm : gmap string ConstraintComponent.
Variable s : Term.






End ShapeConstruction.

(** ** Constraints of a constructed Shape *)

Section ShapeClaims.
Context `{util : RDFQueryUtil}.
Variable getLocalName : string → string.





End ShapeClaims.

(** ** The memo cache of Shapes *)

Section ShapeCache.
Context `{util : RDFQueryUtil}.
Variable getLocalName : string → string.

Lemma newShapesGraph_cacheInv g : cacheInv getLocalName g (newShapesGraph g).
Proof.
  split_and!; [done|done| |].
  - intros k r H. simpl in H. by rewrite lookup_empty in H.
  - intros r S H. simpl in H. by rewrite lookup_nil in H.
Qed.

Lemma getShape_hit sg n r :
  shapes sg !! value n = Some r → getShape getLocalName sg n = (r, sg).
Proof. intros H. unfold getShape. by rewrite H. Qed.

Lemma getShape_miss sg n :
  shapes sg !! value n = None →
  let S := newShape getLocalName (context_shapes sg) (parametersMap sg) n in
  let sg' := (getShape getLocalName sg n).2 in
  (getShape getLocalName sg n).1 = length (store sg)
  ∧ store sg' = store sg ++ [S]
  ∧ shapes sg' = <[value n := length (store sg)]> (shapes sg)
  ∧ context_shapes sg' = context_shapes sg
  ∧ parametersMap sg' = parametersMap sg
  ∧ components sg' = components sg
  ∧ shapeNodesWithConstraints sg' = shapeNodesWithConstraints sg
  ∧ targetShapes sg' = targetShapes sg.
Proof. intros H. unfold getShape. rewrite H. simpl. done. Qed.

Lemma newShape_shapeNode g pm n : shapeNode (newShape getLocalName g pm n) = n.
Proof. done. Qed.

Lemma getShape_cacheInv g sg n :
  cacheInv getLocalName g sg → cacheInv getLocalName g (getShape getLocalName sg n).2.
Proof.
  intros (Hg & Hpm & Hk & Hr).
  destruct (shapes sg !! value n) as [r|] eqn:Hn.
  { rewrite (getShape_hit _ _ _ Hn). simpl. done. }
  destruct (getShape_miss sg n Hn) as (_ & Hst & Hsh & Hg' & Hpm' & _).
  split_and!; [congruence|congruence| |].
  - intros k r. rewrite Hsh, Hst. destruct (decide (value n = k)) as [<-|Hne].
    + rewrite lookup_insert_eq. intros [= <-].
      eexists. split; [by apply list_lookup_middle|done].
    + rewrite lookup_insert_ne by done. intros (S & HS & Hv)%Hk.
      exists S. split; [|done]. by apply lookup_app_l_Some.
  - intros r S. rewrite Hst, Hsh, Hpm'. intros [HS|[Hlen HS]]%lookup_app_Some.
    + destruct (Hr r S HS) as [Hc HSeq]. split; [|done].
      rewrite lookup_insert_ne; [done|]. congruence.
    + apply list_lookup_singleton_Some in HS as [Hz <-].
      rewrite newShape_shapeNode, lookup_insert_eq. split; [f_equal; lia|].
      by rewrite Hg.
Qed.

Lemma getShape_returns g sg n :
  cacheInv getLocalName g sg →
  let '(r, sg') := getShape getLocalName sg n in
  shapes sg' !! value n = Some r
  ∧ (∃ S, store sg' !! r = Some S ∧ value (shapeNode S) = value n)
  ∧ (shapes sg !! value n = None →
     store sg' !! r = Some (newShape getLocalName g (parametersMap sg) n))
  ∧ (∀ r' S', store sg !! r' = Some S' → store sg' !! r' = Some S')
  ∧ (∀ k r', shapes sg !! k = Some r' → shapes sg' !! k = Some r')
  ∧ length (store sg') ≤ S (length (store sg)).
Proof.
  intros Hinv. pose proof Hinv as (Hg & Hpm & Hk & Hr).
  destruct (shapes sg !! value n) as [r|] eqn:Hn.
  { rewrite (getShape_hit _ _ _ Hn). split_and!; try done; [by apply Hk|lia]. }
  destruct (getShape_miss sg n Hn) as (Hfst & Hst & Hsh & _).
  destruct (getShape getLocalName sg n) as [r sg'] eqn:Hget. simpl in *. subst r.
  assert (store sg' !! length (store sg)
          = Some (newShape getLocalName g (parametersMap sg) n)) as Hnew.
  { rewrite Hst, <- Hg. by apply list_lookup_middle. }
  split_and!.
  - by rewrite Hsh, lookup_insert_eq.
  - eexists. split; [exact Hnew|done].
  - done.
  - intros r' S' H. rewrite Hst. by apply lookup_app_l_Some.
  - intros k r' H. rewrite Hsh. rewrite lookup_insert_ne; [done|]. congruence.
  - rewrite Hst, length_app. simpl. lia.
Qed.





End ShapeCache.

Section ShapeCacheClaims.
Context `{util : RDFQueryUtil}.
Variable getLocalName : string → string.



End ShapeCacheClaims.

(** ** Target shapes and target nodes *)

Section Targets.
Context `{util : RDFQueryUtil}.
Variable getLocalName : string → string.




Lemma getShape_fields sg n :
  let sg' := (getShape getLocalName sg n).2 in
  context_shapes sg' = context_shapes sg
  ∧ components sg' = components sg
  ∧ shapeNodesWithConstraints sg' = shapeNodesWithConstraints sg
  ∧ targetShapes sg' = targetShapes sg
  ∧ (store sg' = store sg
     ∨ store sg' = store sg
                   ++ [newShape getLocalName (context_shapes sg) (parametersMap sg) n]).
Proof.
  unfold getShape. destruct (shapes sg !! value n); simpl; split_and!; auto.
Qed.

Lemma getShape_requested g sg n (requested : list Term) :
  cacheInv getLocalName g sg →
  n ∈ requested →
  (∀ r S, store sg !! r = Some S → shapeNode S ∈ requested) →
  ∀ r S, store (getShape getLocalName sg n).2 !! r = Some S → shapeNode S ∈ requested.
Proof.
  intros Hinv Hn Hst r S.
  destruct (getShape_fields sg n) as (_ & _ & _ & _ & [->| ->]); [apply Hst|].
  intros [HS|[_ HS]]%lookup_app_Some; [by eapply Hst|].
  by apply list_lookup_singleton_Some in HS as [_ <-].
Qed.

Lemma getShape_lazyInv g (requested : list Term) sg n :
  lazyInv getLocalName g requested sg → n ∈ requested →
  lazyInv getLocalName g requested (getShape getLocalName sg n).2.
Proof.
  intros (Hinv & Hcomp & Hnodes & Htargets & Hst) Hn.
  pose proof (getShape_returns getLocalName g sg n Hinv) as Hret.
  pose proof (getShape_cacheInv getLocalName g sg n Hinv) as Hinv'.
  pose proof (getShape_requested g sg n requested Hinv Hn Hst) as Hst'.
  destruct (getShape_fields sg n) as (_ & Hc & Hn' & Ht' & _).
  destruct (getShape getLocalName sg n) as [r sg']. cbn [fst snd] in *.
  destruct Hret as (_ & _ & _ & _ & Hmono & _).
  split_and!; [done|by rewrite Hc| |  |done].
  - intros l. rewrite Hn'. apply Hnodes.
  - intros l. rewrite Ht'. intros Hl m Hm Hdecl.
    destruct (Htargets l Hl m Hm Hdecl) as (r' & Hr' & Hc').
    exists r'. split; [done|by apply Hmono].
Qed.

Lemma lazyInv_requested g (requested requested' : list Term) sg :
  (∀ n, n ∈ requested → n ∈ requested') →
  lazyInv getLocalName g requested sg → lazyInv getLocalName g requested' sg.
Proof.
  intros Hsub (Hinv & Hcomp & Hnodes & Htargets & Hst).
  split_and!; try done. intros r S HS. by eapply Hsub, Hst.
Qed.

Lemma getShapeNodesWithConstraints_lazyInv g (requested : list Term) sg :
  lazyInv getLocalName g requested sg →
  (getShapeNodesWithConstraints sg).1 = shapeNodesOf g
  ∧ shapeNodesWithConstraints (getShapeNodesWithConstraints sg).2 = Some (shapeNodesOf g)
  ∧ targetShapes (getShapeNodesWithConstraints sg).2 = targetShapes sg
  ∧ lazyInv getLocalName g requested (getShapeNodesWithConstraints sg).2.
Proof.
  intros Hlazy. pose proof Hlazy as (Hinv & Hcomp & _ & Htargets & Hst).
  unfold getShapeNodesWithConstraints.
  destruct (shapeNodesWithConstraints sg) as [l|] eqn:Hl; simpl.
  - assert (l = shapeNodesOf g) as ->.
    { destruct Hlazy as (_ & _ & Hnodes & _). apply Hnodes. by rewrite Hl. }
    done.
  - destruct Hinv as (Hg & Hpm & Hk & Hr).
    assert (NodeSet.toArray (collectShapeNodes (context_shapes sg) (components sg))
            = shapeNodesOf g) as Heq by (unfold shapeNodesOf; by rewrite Hg, Hcomp).
    rewrite Heq. split_and!; try done.
    split_and!; simpl; try done. by intros ? [= <-].
Qed.

Lemma addTargetShape_inv g (requested : list Term) pre st n :
  n ∈ requested →
  targetLoopInv getLocalName g requested pre st →
  targetLoopInv getLocalName g requested (pre ++ [n]) (addTargetShape getLocalName st n).
Proof.
  destruct st as [acc sg]. intros Hn (Hinv & Hcomp & Hnodes & Htargets & Hst & Hacc).
  cbn [fst snd] in *. unfold addTargetShape. pose proof Hinv as (Hg & _). rewrite Hg.
  destruct (hasTargetDeclaration g n) eqn:Ht.
  - pose proof (getShape_returns getLocalName g sg n Hinv) as Hret.
    pose proof (getShape_cacheInv getLocalName g sg n Hinv) as Hinv'.
    pose proof (getShape_requested g sg n requested Hinv Hn Hst) as Hst'.
    destruct (getShape_fields sg n) as (_ & Hc & Hn' & Ht' & _).
    destruct (getShape getLocalName sg n) as [r sg']. cbn [fst snd] in *.
    destruct Hret as (Hr & _ & _ & _ & Hmono & _).
    split_and!; cbn [fst snd]; [done|by rewrite Hc|by rewrite Hn'|by rewrite Ht'|done|].
    intros m [Hm| ->%list_elem_of_singleton]%elem_of_app Hdecl.
    + destruct (Hacc m Hm Hdecl) as (r' & Hr' & Hc').
      exists r'. split; [apply elem_of_app; by left|by apply Hmono].
    + exists r. split; [|done]. apply elem_of_app. right. apply list_elem_of_here.
  - split_and!; simpl; try done.
    intros m [Hm| ->%list_elem_of_singleton]%elem_of_app Hdecl; [by apply Hacc|congruence].
Qed.


Lemma getShapesWithTarget_lazyInv g (requested : list Term) sg :
  (∀ n, n ∈ shapeNodesOf g → n ∈ requested) →
  lazyInv getLocalName g requested sg →
  lazyInv getLocalName g requested (getShapesWithTarget getLocalName sg).2.
Proof.
  intros Hreq Hinv. unfold getShapesWithTarget.
  destruct (targetShapes sg) as [l|] eqn:Ht; [done|].
  destruct (getShapeNodesWithConstraints_lazyInv g requested sg Hinv)
    as (Hcs & Hcache & Ht1 & (Hinv1 & Hcomp1 & _ & _ & Hst1)).
  destruct (getShapeNodesWithConstraints sg) as [cs sg1]. simpl in *. subst cs.
  assert (targetLoopInv getLocalName g requested [] ([], sg1)) as H0.
  { split_and!; simpl; try done; [congruence|].
    intros n Hn. by apply not_elem_of_nil in Hn. }
  pose proof (foldl_prefix_ind (targetLoopInv getLocalName g requested)
                (addTargetShape getLocalName) ([], sg1) (shapeNodesOf g) H0
                (λ pre x a Hx, addTargetShape_inv g requested pre a x (Hreq x Hx))) as H.
  destruct (foldl _ _ (shapeNodesOf g)) as [acc sg2].
  destruct H as (Hinv2 & Hcomp2 & Hnodes2 & _ & Hst2 & Hacc). simpl in *.
  split_and!; simpl; try done.
  - intros l. rewrite Hnodes2. by intros [= <-].
  - intros l [= <-]. apply Hacc.
Qed.

Lemma afterCalls_lazyInv g calls :
  lazyInv getLocalName g (requestedNodes g calls) (afterCalls getLocalName g calls).
Proof.
  unfold afterCalls. induction calls as [|c calls IH] using rev_ind.
  - split_and!; try done; apply newShapesGraph_cacheInv.
  - rewrite foldl_app. simpl.
    assert (lazyInv getLocalName g (requestedNodes g (calls ++ [c]))
                    (foldl (runCall getLocalName) (newShapesGraph g) calls)) as IH'.
    { eapply lazyInv_requested; [|exact IH]. intros n. unfold requestedNodes.
      rewrite bind_app, !elem_of_app. tauto. }
    destruct c; simpl.
    + apply getShape_lazyInv; [done|]. unfold requestedNodes.
      rewrite bind_app, !elem_of_app. right. right. simpl. apply list_elem_of_here.
    + by apply getShapeNodesWithConstraints_lazyInv.
    + apply getShapesWithTarget_lazyInv; [|done].
      intros n Hn. unfold requestedNodes. apply elem_of_app. by left.
Qed.
End Targets.

Section TargetClaims.
Context `{util : RDFQueryUtil}.
Variable getLocalName : string → string.

End TargetClaims.

(** ** Closure walks *)

Lemma filter_length_mono {A} (P Q : A → Prop)
    `{!∀ x, Decision (P x)} `{!∀ x, Decision (Q x)} (l : list A) :
  (∀ x, x ∈ l → P x → Q x) → length (filter P l) ≤ length (filter Q l).
Proof.
  induction l as [|a l IH]; intros HPQ; [done|].
  rewrite !filter_cons.
  assert (length (filter P l) ≤ length (filter Q l)) as Hle.
  { apply IH. intros x Hx. apply HPQ. by apply list_elem_of_further. }
  destruct (decide (P a)) as [HP|HP].
  - rewrite decide_True by (apply HPQ; [apply list_elem_of_here|done]). simpl. lia.
  - destruct (decide (Q a)); simpl; lia.
Qed.

Lemma filter_length_lt {A} (P Q : A → Prop)
    `{!∀ x, Decision (P x)} `{!∀ x, Decision (Q x)} (l : list A) (a : A) :
  (∀ x, x ∈ l → P x → Q x) → a ∈ l → Q a → ¬ P a →
  length (filter P l) < length (filter Q l).
Proof.
  induction l as [|b l IH]; intros HPQ Ha HQ HP.
  { by apply not_elem_of_nil in Ha. }
  rewrite !filter_cons.
  assert (∀ x, x ∈ l → P x → Q x) as HPQ'.
  { intros x Hx. apply HPQ. by apply list_elem_of_further. }
  pose proof (filter_length_mono P Q l HPQ') as Hle.
  apply elem_of_cons in Ha as [<-|Ha].
  - rewrite decide_False by done. rewrite decide_True by done. simpl. lia.
  - specialize (IH HPQ' Ha HQ HP).
    destruct (decide (P b)) as [HPb|HPb].
    + rewrite decide_True by (apply HPQ; [apply list_elem_of_here|done]). simpl. lia.
    + destruct (decide (Q b)); simpl; lia.
Qed.

Lemma tc_last {A} (R : relation A) (x y : A) :
  tc R x y → ∃ v, rtc R x v ∧ R v y.
Proof.
  induction 1 as [x y HR|x z y HR _ (v & Hr & Hv)].
  - by exists x.
  - exists v. split; [by eapply rtc_l|done].
Qed.

Section Closure.
Variable step : Term → option (list Term).
(** A finite set of nodes that the sub-path does not leave. *)
Variable U : list Term.
Hypothesis step_total : ∀ x, x ∈ U → ∃ l, step x = Some l ∧ ∀ y, y ∈ l → y ∈ U.

Lemma unvisited_mono vis vis' :
  (∀ x, x ∈ vis → x ∈ vis') → unvisited U vis' ≤ unvisited U vis.
Proof. intros H. apply filter_length_mono. intros x _ Hx Hv. by apply Hx, H. Qed.

Lemma unvisited_add vis x :
  x ∈ U → x ∉ vis → unvisited U (NodeSet.add vis x) < unvisited U vis.
Proof.
  intros HU Hx. apply (filter_length_lt _ _ U x); [|done|done|].
  - intros y _ Hy Hv. apply Hy, elem_of_NodeSet_add. by left.
  - intros Hn. apply Hn, elem_of_NodeSet_add. by right.
Qed.

Lemma grows_refl st roots : grows step U st st roots.
Proof.
  split_and!; try done.
  exists []. split_and!; [by rewrite app_nil_r|apply NoDup_nil_2|].
  intros x. rewrite elem_of_nil. tauto.
Qed.

Lemma grows_roots st st' roots roots' :
  (∀ x, x ∈ roots → x ∈ roots') → grows step U st st' roots → grows step U st st' roots'.
Proof.
  intros Hsub (G1 & G2 & G3 & G4 & G5 & G6 & G7). split_and!; try done.
  intros v Hv Hn. destruct (G2 v Hv Hn) as (HU & x & Hx & Hr).
  split; [done|]. exists x. split; [by apply Hsub|done].
Qed.

Lemma grows_trans st st1 st2 roots :
  grows step U st st1 roots → grows step U st1 st2 roots → grows step U st st2 roots.
Proof.
  intros (A1 & A2 & A3 & A4 & A5 & (la & Hla & Nla & Mla) & A7)
         (B1 & B2 & B3 & B4 & B5 & (lb & Hlb & Nlb & Mlb) & B7).
  split_and!.
  - intros x Hx. by apply B1, A1.
  - intros v Hv Hn. destruct (decide (v ∈ w_visited st1)) as [H1|H1].
    + by apply A2.
    + by apply B2.
  - intros v y Hv Hn He. destruct (decide (v ∈ w_visited st1)) as [H1|H1].
    + destruct (A3 v y H1 Hn He) as [? ?]. split; [by apply B1|by apply B4].
    + by apply (B3 v y).
  - intros y Hy. by apply B4, A4.
  - intros y Hy Hn. destruct (decide (y ∈ w_set st1)) as [H1|H1].
    + destruct (A5 y H1 Hn) as (v & Hv & Hvn & He). exists v.
      split_and!; [by apply B1|done|done].
    + destruct (B5 y Hy H1) as (v & Hv & Hvn & He). exists v.
      split_and!; [done| |done]. intros Hin. by apply Hvn, A1.
  - exists (la ++ lb). split_and!.
    + by rewrite Hlb, Hla, app_assoc.
    + apply NoDup_app. split_and!; [done| |done].
      intros x [Hx _]%Mla [_ Hx']%Mlb. done.
    + intros x. rewrite elem_of_app, Mla, Mlb. split.
      * intros [[H1 H2]|[H1 H2]]; [split; [by apply B1|done]|].
        split; [done|]. intros Hin. by apply H2, A1.
      * intros [H1 H2]. destruct (decide (x ∈ w_visited st1)); [by left|by right].
  - intros Hnd. by apply B7, A7.
Qed.

(** The loop over the values found at a node, given the walk itself. *)
Lemma walk_loop (fuel : nat) :
  (∀ subject st, subject ∈ U → subject ∉ w_visited st →
      unvisited U (w_visited st) ≤ fuel →
      ∃ st', walkPath step fuel subject st = Some st'
             ∧ grows step U st st' [subject] ∧ subject ∈ w_visited st') →
  ∀ a st, (∀ x, x ∈ a → x ∈ U) → unvisited U (w_visited st) ≤ fuel →
    ∃ st', foldl (visitUnlessSeen (walkPath step fuel)) (Some st) a = Some st'
           ∧ grows step U st st' a ∧ ∀ x, x ∈ a → x ∈ w_visited st'.
Proof.
  intros Hwalk a. induction a as [|x a IH]; intros st Ha Hfuel.
  { exists st. split_and!; [done|apply grows_refl|].
    intros x Hx. by apply not_elem_of_nil in Hx. }
  assert (∀ y, y ∈ a → y ∈ U) as Ha'.
  { intros y Hy. apply Ha. by apply list_elem_of_further. }
  cbn [foldl]. unfold visitUnlessSeen at 2. cbn [mbind option_bind].
  destruct (NodeSet.has (w_visited st) x) eqn:Hseen.
  - apply NodeSet_has_true in Hseen.
    destruct (IH st Ha' Hfuel) as (st' & Hrun & Hg & Hvis).
    exists st'. split_and!; [done| |].
    + eapply grows_roots; [|done]. intros y Hy. by apply list_elem_of_further.
    + intros y [->|Hy]%elem_of_cons; [|by apply Hvis].
      destruct Hg as (G1 & _). by apply G1.
  - apply NodeSet_has_false in Hseen.
    destruct (Hwalk x st) as (st1 & Hrun1 & Hg1 & Hx1);
      [apply Ha, list_elem_of_here|done|done|].
    rewrite Hrun1.
    assert (unvisited U (w_visited st1) ≤ fuel) as Hfuel1.
    { etrans; [|exact Hfuel]. apply unvisited_mono. by destruct Hg1 as (G1 & _). }
    destruct (IH st1 Ha' Hfuel1) as (st' & Hrun & Hg & Hvis).
    exists st'. split_and!; [done| |].
    + apply grows_trans with st1.
      * eapply grows_roots; [|done].
        intros y ->%list_elem_of_singleton. apply list_elem_of_here.
      * eapply grows_roots; [|done]. intros y Hy. by apply list_elem_of_further.
    + intros y [->|Hy]%elem_of_cons; [|by apply Hvis].
      destruct Hg as (G1 & _). by apply G1.
Qed.

(** The walk entered at an unvisited node of [U] returns whenever the
    fuel covers the nodes not yet visited. *)
Lemma walkPath_grows (fuel : nat) :
  ∀ subject st, subject ∈ U → subject ∉ w_visited st →
    unvisited U (w_visited st) ≤ fuel →
    ∃ st', walkPath step fuel subject st = Some st'
           ∧ grows step U st st' [subject] ∧ subject ∈ w_visited st'.
Proof.
  induction fuel as [|fuel IH]; intros subject st HU Hnew Hfuel.
  { pose proof (unvisited_add _ _ HU Hnew). lia. }
  destruct (step_total subject HU) as (a & Hstep & Ha).
  cbn [walkPath]. rewrite Hstep. cbn [mbind option_bind].
  set (st0 := mkWalk _ _ _).
  assert (unvisited U (w_visited st0) ≤ fuel) as Hfuel0.
  { pose proof (unvisited_add _ _ HU Hnew). simpl. lia. }
  destruct (walk_loop fuel IH a st0 Ha Hfuel0) as (st' & Hrun & Hg & Hvis).
  destruct Hg as (G1 & G2 & G3 & G4 & G5 & (l & Hl & Nl & Ml) & G7).
  assert (∀ x, x ∈ w_visited st0 ↔ x ∈ w_visited st ∨ x = subject) as Hv0.
  { intros x. simpl. apply elem_of_NodeSet_add. }
  assert (∀ y, y ∈ w_set st0 ↔ y ∈ w_set st ∨ y ∈ a) as Hs0.
  { intros y. simpl. apply elem_of_NodeSet_addAll. }
  assert (subject ∈ w_visited st') as Hsub by (apply G1, Hv0; by right).
  exists st'. split_and!; [done| |done].
  split_and!.
  - intros x Hx. apply G1, Hv0. by left.
  - intros v Hv Hn. destruct (decide (v = subject)) as [->|Hne].
    + split; [done|]. exists subject. split; [apply list_elem_of_here|done].
    + destruct (G2 v Hv) as (HvU & x & Hx & Hr); [rewrite Hv0; tauto|].
      split; [done|]. exists subject. split; [apply list_elem_of_here|].
      eapply rtc_l; [|exact Hr]. by exists a.
  - intros v y Hv Hn He. destruct (decide (v = subject)) as [->|Hne].
    + destruct He as (a' & Ha' & Hy). assert (a' = a) as -> by congruence.
      split; [by apply Hvis|]. apply G4, Hs0. by right.
    + apply (G3 v y); [done| |done]. rewrite Hv0. tauto.
  - intros y Hy. apply G4, Hs0. by left.
  - intros y Hy Hn. destruct (decide (y ∈ w_set st0)) as [H0|H0].
    + exists subject. split_and!; [done|done|]. exists a. split; [done|].
      apply Hs0 in H0 as [?|?]; [done|done].
    + destruct (G5 y Hy H0) as (v & Hv & Hvn & He). exists v.
      split_and!; [done| |done]. intros Hin. apply Hvn, Hv0. by left.
  - exists (subject :: l). split_and!.
    + rewrite Hl. simpl. by rewrite <- app_assoc.
    + apply NoDup_cons. split; [|done]. intros [_ Hn]%Ml. apply Hn, Hv0. by right.
    + intros x. rewrite elem_of_cons, Ml, Hv0. split.
      * intros [->|[H1 H2]]; [done|]. split; [done|]. tauto.
      * intros [H1 H2]. destruct (decide (x = subject)); [by left|right]. tauto.
  - intros Hnd. apply G7. simpl. by apply NodeSet_addAll_NoDup.
Qed.

(** A walk from the empty state, entered at [subject]: it returns, it is
    entered at every node reachable from [subject] and at no node twice,
    and its result set holds, once each, the nodes reachable in one or
    more applications of the sub-path. *)
Lemma walkPath_closure (fuel : nat) (subject : Term) :
  subject ∈ U → length U ≤ fuel →
  ∃ st, walkPath step fuel subject emptyWalk = Some st
        ∧ NoDup (w_calls st)
        ∧ (∀ v, v ∈ w_calls st ↔ rtc (stepEdge step) subject v)
        ∧ NoDup (w_set st)
        ∧ (∀ y, y ∈ w_set st ↔ tc (stepEdge step) subject y)
        ∧ (∀ y, y ∈ w_set st → y ∈ U).
Proof.
  intros HU Hfuel.
  destruct (walkPath_grows fuel subject emptyWalk HU) as (st & Hrun & Hg & Hsub).
  { apply not_elem_of_nil. }
  { etrans; [|exact Hfuel]. unfold unvisited. apply length_filter. }
  destruct Hg as (G1 & G2 & G3 & G4 & G5 & (l & Hl & Nl & Ml) & G7).
  simpl in *.
  assert (∀ v, v ∈ w_visited st ↔ rtc (stepEdge step) subject v) as Hvis.
  { intros v. split.
    - intros Hv. destruct (G2 v Hv) as (_ & x & ->%list_elem_of_singleton & Hr);
        [apply not_elem_of_nil|done].
    - revert v. apply (rtc_ind_r (λ v, v ∈ w_visited st)); [done|].
      intros v y _ He Hv. by apply (G3 v y); [|apply not_elem_of_nil|]. }
  exists st. split_and!; [done| | | | |].
  - by rewrite Hl.
  - intros v. rewrite Hl, Ml, <- Hvis. split; [tauto|].
    intros Hv. split; [done|apply not_elem_of_nil].
  - apply G7, NoDup_nil_2.
  - intros y. split.
    + intros Hy. destruct (G5 y Hy) as (v & Hv & _ & He); [apply not_elem_of_nil|].
      apply Hvis in Hv. eapply tc_rtc_l; [exact Hv|by apply tc_once].
    + intros (v & Hr & He)%tc_last.
      apply Hvis in Hr. by apply (G3 v y); [|apply not_elem_of_nil|].
  - intros y Hy. destruct (G5 y Hy) as (v & Hv & _ & (l' & Hstep & Hin));
      [apply not_elem_of_nil|].
    destruct (G2 v Hv) as (HvU & _); [apply not_elem_of_nil|].
    destruct (step_total v HvU) as (l'' & Hstep' & HinU).
    apply HinU. congruence.
Qed.
End Closure.

(** ** Closures over a predicate *)

Lemma graphNodes_object g t : t ∈ g → object t ∈ graphNodes g.
Proof.
  intros Ht. unfold graphNodes. apply list_elem_of_bind. exists t.
  split; [|done]. apply list_elem_of_further, list_elem_of_here.
Qed.


Lemma evalPath_predicate fuel g pr x :
  evalPath fuel g (PathPredicate pr) x
  = Some (NodeSet.addAll NodeSet.empty (getObjects g x pr)).
Proof. done. Qed.

Lemma evalPath_zeroOrMore fuel g q x :
  evalPath fuel g (PathZeroOrMore q) x
  = (st ← walkPath (evalPath fuel g q) fuel x emptyWalk;
     Some (NodeSet.toArray (NodeSet.add (w_set st) x))).
Proof. done. Qed.

Lemma evalPath_oneOrMore fuel g q x :
  evalPath fuel g (PathOneOrMore q) x
  = (st ← walkPath (evalPath fuel g q) fuel x emptyWalk;
     Some (NodeSet.toArray (w_set st))).
Proof. done. Qed.

Lemma stepEdge_predicate fuel g pr x y :
  stepEdge (evalPath fuel g (PathPredicate pr)) x y ↔ predicateEdge g pr x y.
Proof.
  unfold stepEdge, predicateEdge. rewrite evalPath_predicate. split.
  - intros (l & [= <-] & Hy). apply elem_of_NodeSet_addAll in Hy as [Hy|Hy].
    + by apply not_elem_of_nil in Hy.
    + by apply elem_of_getObjects.
  - intros Ht. eexists. split; [done|]. apply elem_of_NodeSet_addAll. right.
    by apply elem_of_getObjects.
Qed.

Lemma rtc_iff {A} (R1 R2 : relation A) (x y : A) :
  (∀ a b, R1 a b ↔ R2 a b) → rtc R1 x y ↔ rtc R2 x y.
Proof. intros H. split; apply rtc_subrel; intros a b; apply H. Qed.

Lemma tc_iff {A} (R1 R2 : relation A) (x y : A) :
  (∀ a b, R1 a b ↔ R2 a b) → tc R1 x y ↔ tc R2 x y.
Proof.
  intros H. split; induction 1 as [a b HR|a c b HR _ IH].
  - by apply tc_once, H.
  - eapply tc_l; [by apply H|done].
  - by apply tc_once, H.
  - eapply tc_l; [by apply H|done].
Qed.

(** C9. Over any data graph, cyclic or not, the closure walk behind a
    zero-or-more or one-or-more path over a predicate returns once the
    fuel exceeds the number of node positions of the graph; the walk is
    entered at no node twice; the zero-or-more path yields, once each,
    exactly the nodes reachable from the focus node along the predicate,
    and the one-or-more path those reachable in at least one step. *)
Theorem closure_terminates_each_node_once
    (g : Graph) (pr subject : Term) (fuel : nat) :
  length (graphNodes g) < fuel →
  (∃ st, walkPath (evalPath fuel g (PathPredicate pr)) fuel subject emptyWalk = Some st
         ∧ NoDup (w_calls st))
  ∧ (∃ l, evalPath fuel g (PathZeroOrMore (PathPredicate pr)) subject = Some l
          ∧ NoDup l
          ∧ ∀ y, y ∈ l ↔ rtc (predicateEdge g pr) subject y)
  ∧ (∃ l, evalPath fuel g (PathOneOrMore (PathPredicate pr)) subject = Some l
          ∧ NoDup l
          ∧ ∀ y, y ∈ l ↔ tc (predicateEdge g pr) subject y).
Proof.
  intros Hfuel.
  destruct (walkPath_closure (evalPath fuel g (PathPredicate pr))
              (subject :: graphNodes g)) with (fuel := fuel) (subject := subject)
    as (st & Hrun & Ncalls & Hcalls & Nset & Hset & _).
  { intros x _. eexists. split; [apply evalPath_predicate|].
    intros y [Hy|Hy]%elem_of_NodeSet_addAll; [by apply not_elem_of_nil in Hy|].
    apply elem_of_getObjects in Hy. apply list_elem_of_further.
    by apply (graphNodes_object g (mkTriple x pr y)). }
  { apply list_elem_of_here. }
  { simpl. lia. }
  split_and!.
  - by exists st.
  - rewrite evalPath_zeroOrMore, Hrun. cbn [mbind option_bind]. eexists. split; [done|].
    split; [by apply NodeSet_add_NoDup|].
    intros y. unfold NodeSet.toArray. rewrite elem_of_NodeSet_add, Hset.
    rewrite <- (rtc_iff _ _ subject y (stepEdge_predicate fuel g pr)). split.
    + intros [Ht| ->]; [by apply tc_rtc|done].
    + intros [->|Ht]%rtc_tc; [by right|by left].
  - rewrite evalPath_oneOrMore, Hrun. cbn [mbind option_bind]. eexists. split; [done|].
    split; [done|]. intros y. unfold NodeSet.toArray. rewrite Hset.
    apply tc_iff, stepEdge_predicate.
Qed.

(** ** Every traversal returns *)


Section Totality.
Variable g : Graph.
Variable fuel : nat.
Hypothesis enough_fuel : length (graphNodes g) < fuel.






End Totality.

(** ** The path compiler and value nodes *)

Lemma getObject_None g s p : ¬ hasTriple g s p → getObject g s p = None.
Proof.
  intros H. unfold getObject, getObjects.
  destruct (query_match g (Some s) (Some p) None) as [|t ts] eqn:Hq; [done|].
  exfalso. apply H. apply hasSolution_outgoing. by rewrite Hq.
Qed.



(** C6. A path term that is not an IRI, not an ordered list and not a blank
    node bearing an alternative-path, zero-or-more, one-or-more, zero-or-one
    or inverse marker makes [toRDFQueryPath] throw the unsupported-path
    error for that term: no path expression is returned. *)
Theorem toRDFQueryPath_unsupported (fuel : nat) (g : Graph) (shPath : Term) :
  termType shPath ≠ NamedNode →
  ¬ isOrderedList g shPath →
  ¬ bearsPathMarker g shPath →
  toRDFQueryPath (S fuel) g shPath = Throw (UnsupportedSHACLPath shPath).
Proof.
  intros Hiri Hlist Hmark. unfold isOrderedList, bearsPathMarker in *. simpl.
  rewrite bool_decide_eq_false_2 by tauto.
  rewrite bool_decide_eq_false_2 by done.
  case_bool_decide as Hb; [|done].
  rewrite !getObject_None by tauto. done.
Qed.


(** ** The model on the example graphs *)

(** Decides a closed decidable proposition by evaluation. *)
Ltac by_evaluation := apply (bool_decide_unpack _); vm_compute; exact I.

Section OnExamples.
Import Examples.
#[local] Existing Instance directTyping.

Let pm := parametersMap (newShapesGraph shapesGraph).

Example shapesGraph_constraints :
  (λ k, (node (component k), paramValue k))
    <$> constraints (newShape id shapesGraph pm (ex "S"))
  = [ (ex "OneComp", Some (lit "1")); (ex "OneComp", Some (lit "2")) ].
Proof. vm_compute. reflexivity. Qed.

Example clashGraph_last_wins :
  node <$> components (newShapesGraph clashGraph) = [ex "First"; ex "Second"]
  ∧ node <$> getComponentWithParameter (newShapesGraph clashGraph) (ex "min")
    = Some (ex "Second").
Proof. split; vm_compute; reflexivity. Qed.

Example shapesGraph_targets :
  (getShapesWithTarget id (newShapesGraph shapesGraph)).1 = [0].
Proof. vm_compute. reflexivity. Qed.

Example cyclicShapes_two_shapes :
  let sg := afterCalls id cyclicShapes
              [CallGetShape (ex "A"); CallGetShape (ex "B"); CallGetShape (ex "A")] in
  shapeNode <$> store sg = [ex "A"; ex "B"].
Proof. vm_compute. reflexivity. Qed.

Example person_target_nodes :
  getTargetNodes personShapes (newShape id personShapes ∅ (ex "PersonShape")) personData
  = [ex "alice"; ex "bob"].
Proof. vm_compute. reflexivity. Qed.

Example person_value_nodes :
  getValueNodes 2 personShapes (newShape id personShapes ∅ (ex "PersonShape"))
                (ex "alice") personData = Ok [lit "Alice"]
  ∧ getValueNodes 2 personShapes (newShape id personShapes ∅ (ex "PersonShape"))
                  (ex "bob") personData = Ok [].
Proof. split; vm_compute; reflexivity. Qed.

Example compile_zeroOrMore_inverse :
  toRDFQueryPath 3 pathGraph (bnode "z")
  = Ok (PathZeroOrMore (PathInverse (PathPredicate (ex "knows")))).
Proof. vm_compute. reflexivity. Qed.

Example knows_closure :
  evalPath 9 knowsCycle (PathZeroOrMore (PathPredicate (ex "knows"))) (ex "alice")
  = Some [ex "bob"; ex "carol"; ex "alice"].
Proof. vm_compute. reflexivity. Qed.

Example knows_inverse_closure :
  evalPath 9 knowsCycle (PathZeroOrMore (PathInverse (PathPredicate (ex "knows"))))
           (ex "alice")
  = Some [ex "carol"; ex "dave"; ex "bob"; ex "alice"].
Proof. vm_compute. reflexivity. Qed.








Lemma toRDFQueryPath_unsupported_witness :
  toRDFQueryPath 1 pathGraph (lit "knows") = Throw (UnsupportedSHACLPath (lit "knows"))
  ∧ toRDFQueryPath 1 pathGraph (bnode "empty")
    = Throw (UnsupportedSHACLPath (bnode "empty")).
Proof.
  split; apply toRDFQueryPath_unsupported.
  - by_evaluation.
  - unfold isOrderedList. by_evaluation.
  - unfold bearsPathMarker. by_evaluation.
  - by_evaluation.
  - unfold isOrderedList. by_evaluation.
  - unfold bearsPathMarker. by_evaluation.
Defined.


Lemma closure_terminates_each_node_once_witness :
  (∃ st, walkPath (evalPath 9 knowsCycle (PathPredicate (ex "knows"))) 9 (ex "alice")
                  emptyWalk = Some st
         ∧ NoDup (w_calls st))
  ∧ (∃ l, evalPath 9 knowsCycle (PathZeroOrMore (PathPredicate (ex "knows"))) (ex "alice")
          = Some l
          ∧ NoDup l
          ∧ ∀ y, y ∈ l ↔ rtc (predicateEdge knowsCycle (ex "knows")) (ex "alice") y)
  ∧ (∃ l, evalPath 9 knowsCycle (PathOneOrMore (PathPredicate (ex "knows"))) (ex "alice")
          = Some l
          ∧ NoDup l
          ∧ ∀ y, y ∈ l ↔ tc (predicateEdge knowsCycle (ex "knows")) (ex "alice") y).
Proof.
  apply closure_terminates_each_node_once. vm_compute. lia.
Defined.
End OnExamples.

(** * Further properties of the code *)

(** ** The ConstraintComponent constructor *)

Lemma hasSolution_triple g s p o :
  hasSolution (query_match g (Some s) (Some p) (Some o)) = true ↔ mkTriple s p o ∈ g.
Proof.
  rewrite hasSolution_true. split.
  - intros ([s' p' o'] & Ht). apply elem_of_query_match in Ht as [Ht Hm].
    unfold matchTriple in Hm. rewrite !andb_true_iff, !matches_Some in Hm.
    simpl in Hm. by destruct Hm as [[-> ->] ->].
  - intros Ht. exists (mkTriple s p o). apply elem_of_query_match. split; [done|].
    unfold matchTriple. simpl. by rewrite !bool_decide_eq_true_2.
Qed.

Lemma elem_of_parameterSolutions g n prm pth :
  (prm, pth) ∈ parameterSolutions g n ↔
  mkTriple n sh.parameter prm ∈ g ∧ mkTriple prm sh.path pth ∈ g.
Proof.
  unfold parameterSolutions. rewrite list_elem_of_bind. split.
  - intros (prm' & Hin & Hprm). apply list_elem_of_fmap in Hin as (pth' & [= -> ->] & Hpth).
    by rewrite <- !elem_of_getObjects.
  - intros [Hprm Hpth]. exists prm. rewrite !elem_of_getObjects. split; [|done].
    apply list_elem_of_fmap. exists pth. by rewrite elem_of_getObjects.
Qed.

(** The fields after the [forEach] loop has run over the solutions [sols]. *)
Lemma foldl_addParameter g c0 (sols : list (Term * Term)) :
  let c := foldl (addParameter g) c0 sols in
  node c = node c0
  ∧ parameters c = parameters c0 ++ sols.*2
  ∧ parameterNodes c = parameterNodes c0 ++ sols.*1
  ∧ requiredParameters c
    = requiredParameters c0 ++ (filter (λ sol, ¬ markedOptional g sol.1) sols).*2
  ∧ (∀ v, optionals c !! v
          = if decide (Exists (λ sol, markedOptional g sol.1 ∧ value sol.2 = v) sols)
            then Some true else optionals c0 !! v).
Proof.
  induction sols as [|[prm pth] sols IH] using rev_ind; cbv zeta.
  { simpl. rewrite !app_nil_r. by split_and!. }
  destruct IH as (Hn & Hp & Hpn & Hr & Ho).
  rewrite foldl_app. cbn [foldl]. set (c := foldl (addParameter g) c0 sols) in *.
  rewrite filter_app, filter_cons, filter_nil, !fmap_app. cbn [fst snd fmap list_fmap].
  unfold addParameter.
  destruct (hasSolution _) eqn:Hopt.
  - apply hasSolution_triple in Hopt. rewrite decide_False by (intros H; by apply H).
    cbn [node parameters parameterNodes requiredParameters optionals].
    rewrite Hp, Hpn, Hr, !app_assoc, app_nil_r. split_and!; try done.
    intros v. destruct (decide (value pth = v)) as [<-|Hne].
    + rewrite lookup_insert_eq, decide_True; [done|].
      apply Exists_app. right. by apply Exists_cons_hd.
    + rewrite lookup_insert_ne, Ho by done.
      destruct (decide (Exists _ sols)) as [He|He].
      * rewrite decide_True; [done|]. apply Exists_app. by left.
      * rewrite decide_False; [done|]. rewrite Exists_app. intros [?|Hx]; [done|].
        apply Exists_cons in Hx as [[_ ?]|Hx]; [done|by apply Exists_nil in Hx].
  - assert (¬ markedOptional g prm) as Hnot.
    { intros Hm. apply hasSolution_triple in Hm. congruence. }
    rewrite decide_True by done.
    cbn [node parameters parameterNodes requiredParameters optionals fmap list_fmap].
    rewrite Hp, Hpn, Hr, !app_assoc. split_and!; try done.
    intros v. rewrite Ho.
    destruct (decide (Exists _ sols)) as [He|He].
    + rewrite decide_True; [done|]. apply Exists_app. by left.
    + rewrite decide_False; [done|]. rewrite Exists_app. intros [?|Hx]; [done|].
      apply Exists_cons in Hx as [[? _]|Hx]; [done|by apply Exists_nil in Hx].
Qed.

(** X1. The constructor keeps the component node, lists the parameter nodes
    and their paths side by side in encounter order, and a term is a
    parameter exactly when some parameter node of the component has it as
    its sh:path. *)
Theorem newConstraintComponent_parameters (g : Graph) (n : Term) :
  let c := newConstraintComponent g n in
  node c = n
  ∧ zip (parameterNodes c) (parameters c) = parameterSolutions g n
  ∧ length (parameterNodes c) = length (parameters c)
  ∧ (∀ p, p ∈ parameters c ↔
          ∃ prm, mkTriple n sh.parameter prm ∈ g ∧ mkTriple prm sh.path p ∈ g).
Proof.
  cbv zeta. unfold newConstraintComponent.
  destruct (foldl_addParameter g (mkComponent n [] [] [] ∅) (parameterSolutions g n))
    as (Hn & Hp & Hpn & _).
  simpl in Hp, Hpn. rewrite Hn, Hp, Hpn. split_and!.
  - done.
  - apply zip_fst_snd.
  - by rewrite !length_fmap.
  - intros p. rewrite list_elem_of_fmap. split.
    + intros ([prm pth] & -> & Hin). exists prm. by apply elem_of_parameterSolutions.
    + intros (prm & Hin). exists (prm, p). split; [done|].
      by apply elem_of_parameterSolutions.
Qed.


(** ** The parameter index after construction *)

Section IndexLookup.
Context `{util : RDFQueryUtil}.
Variable getLocalName : string → string.


End IndexLookup.

(** ** Parameter values of a Constraint *)

Section ConstraintValues.
Context `{util : RDFQueryUtil}.
Variable getLocalName : string → string.






End ConstraintValues.

(** ** Where the Constraints of a Shape come from *)

Section ConstraintOrigin.
Context `{util : RDFQueryUtil}.
Variable getLocalName : string → string.
Variable g : Graph.
Variable pm : gmap string ConstraintComponent.
Variable s : Term.




End ConstraintOrigin.

Section ShapeConstraints.
Context `{util : RDFQueryUtil}.
Variable getLocalName : string → string.



End ShapeConstraints.

(** ** Shape nodes with constraints and target nodes *)

Lemma elem_of_getSubjects g p n : n ∈ getSubjects g p None ↔ hasTriple g n p.
Proof.
  unfold getSubjects, hasTriple. rewrite list_elem_of_fmap, Exists_exists.
  apply exist_proper. intros t. rewrite elem_of_query_match. unfold matchTriple.
  rewrite !andb_true_iff, matches_Some. simpl. intuition congruence.
Qed.

Lemma elem_of_objects_of g p x :
  x ∈ object <$> query_match g None (Some p) None ↔ ∃ s, mkTriple s p x ∈ g.
Proof.
  rewrite list_elem_of_fmap. split.
  - intros ([s' p' o'] & -> & Ht). apply elem_of_query_match in Ht as [Ht Hm].
    unfold matchTriple in Hm. rewrite !andb_true_iff, matches_Some in Hm.
    simpl in Hm. destruct Hm as [[_ ->] _]. by exists s'.
  - intros [s Ht]. exists (mkTriple s p x). split; [done|].
    apply elem_of_query_match. split; [done|]. unfold matchTriple. simpl.
    by rewrite bool_decide_eq_true_2.
Qed.

(** A loop that adds, for each element, a list of terms to a NodeSet. *)
Lemma foldl_addAll {A} (f : A → list Term) (xs : list A) (s0 : NodeSet.t) :
  let r := foldl (λ set x, NodeSet.addAll set (f x)) s0 xs in
  (NoDup s0 → NoDup r) ∧ ∀ n, n ∈ r ↔ n ∈ s0 ∨ ∃ x, x ∈ xs ∧ n ∈ f x.
Proof.
  revert s0. induction xs as [|x xs IH]; intros s0; cbn [foldl].
  - split; [done|]. intros n. split; [by left|].
    intros [?|(x & Hx & _)]; [done|]. by apply not_elem_of_nil in Hx.
  - destruct (IH (NodeSet.addAll s0 (f x))) as [Hnd Hin]. split.
    + intros H. by apply Hnd, NodeSet_addAll_NoDup.
    + intros n. rewrite Hin, elem_of_NodeSet_addAll. split.
      * intros [[?|?]|(y & Hy & Hn)]; [by left| |].
        -- right. exists x. split; [apply list_elem_of_here|done].
        -- right. exists y. split; [by apply list_elem_of_further|done].
      * intros [?|(y & [->|Hy]%elem_of_cons & Hn)].
        -- left. by left.
        -- left. by right.
        -- right. by exists y.
Qed.

Lemma collectShapeNodes_spec g (cs : list ConstraintComponent) :
  NoDup (collectShapeNodes g cs)
  ∧ ∀ n, n ∈ collectShapeNodes g cs ↔
         ∃ c p, c ∈ cs ∧ p ∈ requiredParameters c ∧ hasTriple g n p.
Proof.
  unfold collectShapeNodes.
  assert (∀ s0,
    let r := foldl (λ set c,
                      foldl (λ set p, NodeSet.addAll set (getSubjects g p None))
                            set (requiredParameters c)) s0 cs in
    (NoDup s0 → NoDup r)
    ∧ ∀ n, n ∈ r ↔ n ∈ s0 ∨ ∃ c p, c ∈ cs ∧ p ∈ requiredParameters c ∧ hasTriple g n p)
    as H.
  { induction cs as [|c cs IH]; intros s0; cbn [foldl].
    - split; [done|]. intros n. split; [by left|].
      intros [?|(c & p & Hc & _)]; [done|]. by apply not_elem_of_nil in Hc.
    - destruct (foldl_addAll (λ p, getSubjects g p None) (requiredParameters c) s0)
        as [Hnd1 Hin1].
      destruct (IH (foldl (λ set p, NodeSet.addAll set (getSubjects g p None))
                          s0 (requiredParameters c))) as [Hnd Hin].
      split; [by intros ?; apply Hnd, Hnd1|].
      intros n. rewrite Hin, Hin1. split.
      + intros [[?|(p & Hp & Hn)]|(c' & p & Hc' & Hp & Hn)]; [by left| |].
        * right. exists c, p. split_and!; [apply list_elem_of_here|done|].
          by apply elem_of_getSubjects.
        * right. exists c', p. split_and!; [by apply list_elem_of_further|done|done].
      + intros [?|(c' & p & [->|Hc']%elem_of_cons & Hp & Hn)].
        * left. by left.
        * left. right. exists p. split; [done|]. by apply elem_of_getSubjects.
        * right. by exists c', p. }
  destruct (H NodeSet.empty) as [Hnd Hin]. split; [apply Hnd, NoDup_nil_2|].
  intros n. rewrite Hin. split; [|by right].
  intros [Hn|?]; [|done]. by apply not_elem_of_nil in Hn.
Qed.

Section ShapeNodes.
Context `{util : RDFQueryUtil}.
Variable getLocalName : string → string.

(** X8. Whatever was called before, [getShapeNodesWithConstraints] returns
    the list a fresh ShapesGraph computes: without repetition, the
    subjects of the triples of the shapes graph whose predicate is a
    required parameter of a component.  The call keeps the Shape cache,
    the Shape objects and the target shapes, and a second call returns
    the same list and changes nothing. *)
Theorem getShapeNodesWithConstraints_characterised (g : Graph) (calls : list Call) :
  let sg := afterCalls getLocalName g calls in
  let '(l, sg') := getShapeNodesWithConstraints sg in
  l = (getShapeNodesWithConstraints (newShapesGraph g)).1
  ∧ NoDup l
  ∧ (∀ n, n ∈ l ↔ ∃ c p, c ∈ components sg ∧ p ∈ requiredParameters c ∧ hasTriple g n p)
  ∧ getShapeNodesWithConstraints sg' = (l, sg')
  ∧ shapes sg' = shapes sg ∧ store sg' = store sg ∧ targetShapes sg' = targetShapes sg.
Proof.
  intros sg.
  pose proof (afterCalls_lazyInv getLocalName g calls) as Hinv. fold sg in Hinv.
  destruct (getShapeNodesWithConstraints_lazyInv getLocalName g _ sg Hinv)
    as (Hl & Hcached & Ht & _).
  destruct Hinv as (_ & Hcomp & _).
  assert (shapes (getShapeNodesWithConstraints sg).2 = shapes sg
          ∧ store (getShapeNodesWithConstraints sg).2 = store sg) as [Hsh Hst].
  { unfold getShapeNodesWithConstraints. by destruct (shapeNodesWithConstraints sg). }
  destruct (getShapeNodesWithConstraints sg) as [l sg']. cbn [fst snd] in *. subst l.
  destruct (collectShapeNodes_spec g (components (newShapesGraph g))) as [Hnd Hin].
  split_and!; try done.
  - intros n. rewrite Hcomp. apply Hin.
  - unfold getShapeNodesWithConstraints. by rewrite Hcached.
Qed.

(** X9. The target nodes of a Shape are, without repetition: the instances
    in the data graph of the shape node when it is an instance of
    rdfs:Class in the shapes graph, the instances of its target classes,
    its target nodes as declared (whether or not the data graph mentions
    them), the subjects in the data graph of its target-subjects-of
    predicates and the objects of its target-objects-of predicates. *)
Theorem getTargetNodes_characterised (g : Graph) (S : Shape) (rdfDataGraph : Graph) :
  NoDup (getTargetNodes g S rdfDataGraph)
  ∧ ∀ x, x ∈ getTargetNodes g S rdfDataGraph ↔
      (isInstanceOf g (shapeNode S) rdfs.Class = true
       ∧ x ∈ getInstancesOf rdfDataGraph (shapeNode S))
      ∨ (∃ cls, mkTriple (shapeNode S) sh.targetClass cls ∈ g
                ∧ x ∈ getInstancesOf rdfDataGraph cls)
      ∨ mkTriple (shapeNode S) sh.targetNode x ∈ g
      ∨ (∃ p, mkTriple (shapeNode S) sh.targetSubjectsOf p ∈ g
              ∧ hasTriple rdfDataGraph x p)
      ∨ (∃ p s, mkTriple (shapeNode S) sh.targetObjectsOf p ∈ g
                ∧ mkTriple s p x ∈ rdfDataGraph).
Proof.
  unfold getTargetNodes, NodeSet.toArray. cbv zeta.
  set (r1 := if isInstanceOf g (shapeNode S) rdfs.Class then _ else _).
  assert (NoDup r1 ∧ ∀ x, x ∈ r1 ↔ isInstanceOf g (shapeNode S) rdfs.Class = true
                                   ∧ x ∈ getInstancesOf rdfDataGraph (shapeNode S))
    as [Hnd1 H1].
  { subst r1. destruct (isInstanceOf g (shapeNode S) rdfs.Class).
    - split; [apply NodeSet_addAll_NoDup, NoDup_nil_2|]. intros x.
      rewrite elem_of_NodeSet_addAll. split; [|intros [_ ?]; by right].
      intros [H|H]; [by apply not_elem_of_nil in H|done].
    - split; [apply NoDup_nil_2|]. intros x. split; [|by intros [? _]].
      intros H. by apply not_elem_of_nil in H. }
  destruct (foldl_addAll (λ targetClass, getInstancesOf rdfDataGraph targetClass)
              (getObjects g (shapeNode S) sh.targetClass) r1) as [Hnd2 H2].
  cbv zeta in Hnd2, H2.
  set (r2 := foldl _ r1 (getObjects g (shapeNode S) sh.targetClass)) in *.
  set (r3 := NodeSet.addAll r2 (getObjects g (shapeNode S) sh.targetNode)).
  destruct (foldl_addAll (λ predicate, getSubjects rdfDataGraph predicate None)
              (getObjects g (shapeNode S) sh.targetSubjectsOf) r3) as [Hnd4 H4].
  cbv zeta in Hnd4, H4.
  set (r4 := foldl _ r3 (getObjects g (shapeNode S) sh.targetSubjectsOf)) in *.
  destruct (foldl_addAll
              (λ predicate, object <$> query_match rdfDataGraph None (Some predicate) None)
              (getObjects g (shapeNode S) sh.targetObjectsOf) r4) as [Hnd5 H5].
  cbv zeta in Hnd5, H5.
  split.
  - apply Hnd5, Hnd4, NodeSet_addAll_NoDup, Hnd2, Hnd1.
  - intros x. rewrite H5, H4. unfold r3. rewrite elem_of_NodeSet_addAll, H2, H1.
    rewrite elem_of_getObjects.
    setoid_rewrite elem_of_getObjects. setoid_rewrite elem_of_getSubjects.
    setoid_rewrite elem_of_objects_of. clear. firstorder.
Qed.
End ShapeNodes.

(** ** Shape objects over the life of a ShapesGraph *)

Section ShapeLife.
Context `{util : RDFQueryUtil}.
Variable getLocalName : string → string.











End ShapeLife.

(** ** The target shapes *)

Section TargetShapes.
Context `{util : RDFQueryUtil}.
Variable getLocalName : string → string.








End TargetShapes.

(** ** Results of the path compiler *)

Lemma bindResult_Ok {A B} (r : Result A) (k : A → Result B) (b : B) :
  bindResult r k = Ok b ↔ ∃ a, r = Ok a ∧ k a = Ok b.
Proof.
  destruct r as [a| |]; simpl; split; try done.
  - intros H. by exists a.
  - by intros (a' & [= <-] & H).
  - by intros (a' & [=] & _).
  - by intros (a' & [=] & _).
Qed.


Lemma mapResult_Ok {A B} (f : A → Result B) (l : list A) (ys : list B) :
  mapResult f l = Ok ys ↔ Forall2 (λ x y, f x = Ok y) l ys.
Proof.
  revert ys. induction l as [|x l IH]; intros ys; simpl.
  - split; [intros [= <-]; constructor|]. by intros ->%Forall2_nil_inv_l.
  - rewrite bindResult_Ok. split.
    + intros (y & Hy & (ys' & Hys & [= <-])%bindResult_Ok).
      constructor; [done|]. by apply IH.
    + intros (y & ys' & Hy & Hys & ->)%Forall2_cons_inv_l.
      exists y. split; [done|]. apply bindResult_Ok. exists ys'. split; [|done].
      by apply IH.
Qed.



(** X13. A path that [toRDFQueryPath] returns has IRIs as its predicates,
    at any depth; it is a direct predicate exactly when the path term is
    an IRI, and then it is that term. *)
Theorem toRDFQueryPath_predicates_are_IRIs (g : Graph) :
  (∀ fuel shPath p, toRDFQueryPath fuel g shPath = Ok p →
                    Forall (λ x, termType x = NamedNode) (pathLeaves p))
  ∧ (∀ fuel shPath q, toRDFQueryPath (S fuel) g shPath = Ok (PathPredicate q)
                      ↔ termType shPath = NamedNode ∧ q = shPath).
Proof.
  split.
  - induction fuel as [|fuel IH]; intros t p H; [done|].
    assert (∀ t0 K, (∀ result, pathLeaves (K result) = result ≫= pathLeaves) →
              bindResult (bindResult (rdfListToArray fuel g t0)
                                     (mapResult (toRDFQueryPath fuel g)))
                         (λ result, Ok (K result)) = Ok p →
              Forall (λ x, termType x = NamedNode) (pathLeaves p)) as Hlist.
    { intros t0 K HK (result & (ts & _ & Hmap)%bindResult_Ok & [= <-])%bindResult_Ok.
      rewrite HK. apply Forall_bind. apply mapResult_Ok in Hmap.
      clear H. induction Hmap; constructor; [by eapply IH|done]. }
    assert (∀ t0 K, (∀ r, pathLeaves (K r) = pathLeaves r) →
              bindResult (toRDFQueryPath fuel g t0) (λ r, Ok (K r)) = Ok p →
              Forall (λ x, termType x = NamedNode) (pathLeaves p)) as Hun.
    { intros t0 K HK (r & Hr & [= <-])%bindResult_Ok. rewrite HK. by eapply IH. }
    cbn [toRDFQueryPath] in H.
    case_bool_decide; [by eapply (Hlist t PathSeq)|].
    case_bool_decide as Hiri.
    { injection H as <-. simpl. by apply Forall_singleton. }
    case_bool_decide; [|done].
    destruct (getObject g t rdf.first); [by eapply (Hlist t PathSeq)|].
    destruct (getObject g t sh.alternativePath) as [a|]; [by eapply (Hlist a PathOr)|].
    destruct (getObject g t sh.zeroOrMorePath) as [a|];
      [by eapply (Hun a PathZeroOrMore)|].
    destruct (getObject g t sh.oneOrMorePath) as [a|];
      [by eapply (Hun a PathOneOrMore)|].
    destruct (getObject g t sh.zeroOrOnePath) as [a|];
      [by eapply (Hun a PathZeroOrOne)|].
    destruct (getObject g t sh.inversePath) as [a|];
      [by eapply (Hun a PathInverse)|].
    done.
  - intros fuel t q. cbn [toRDFQueryPath]. split.
    + case_bool_decide; [by intros (? & _ & [=])%bindResult_Ok|].
      case_bool_decide; [by intros [= <-]|].
      case_bool_decide; [|done].
      repeat (destruct (getObject g t _); [by intros (? & _ & [=])%bindResult_Ok|]).
      done.
    + intros [Hiri ->].
      rewrite bool_decide_eq_false_2 by (rewrite Hiri; done).
      by rewrite bool_decide_eq_true_2.
Qed.


(** X15. A path definition that loops never compiles: when every term of
    a set is a blank node whose zero-or-more, one-or-more, zero-or-one or
    inverse sub-path is again in the set, [toRDFQueryPath] on a term of
    the set exceeds every bound on the nesting depth; it neither returns
    a path nor throws the unsupported-path error. *)
Theorem toRDFQueryPath_loop_never_returns (g : Graph) (loop : list Term) :
  (∀ t, t ∈ loop → ∃ t', unarySubPath g t = Some t' ∧ t' ∈ loop) →
  ∀ fuel shPath, shPath ∈ loop → toRDFQueryPath fuel g shPath = OutOfFuel.
Proof.
  intros Hclosed. induction fuel as [|fuel IH]; intros t Ht; [done|].
  destruct (Hclosed t Ht) as (t' & Hsub & Ht'). specialize (IH t' Ht').
  unfold unarySubPath in Hsub. case_bool_decide as Hb; [|done].
  cbn [toRDFQueryPath].
  rewrite bool_decide_eq_false_2 by (rewrite Hb; done).
  rewrite bool_decide_eq_false_2 by (rewrite Hb; done).
  rewrite bool_decide_eq_true_2 by done.
  destruct (getObject g t rdf.first); [done|].
  destruct (getObject g t sh.alternativePath); [done|].
  repeat (destruct (getObject g t _); [injection Hsub as ->; by rewrite IH|]).
  done.
Qed.

(** ** Validators and messages *)

Lemma validatorTypeOf_sh :
  validatorTypeOf sh.nodeValidator = "nodeValidator"
  ∧ validatorTypeOf sh.propertyValidator = "propertyValidator"
  ∧ validatorTypeOf sh.validator = "validator".
Proof. by vm_compute. Qed.

(** X16. The validation function a component holds for a kind of shape
    (node or property) and the messages it reports for a shape of that
    kind come from the same validator of the registry: the one registered
    for the kind if there is one, else the generic one; the function is
    built from the validator's function and the component's parameters.
    The generic flag is set exactly when none is registered for the kind;
    without any validator there is no function and no message, and there
    is never more than one message. *)
Theorem getMessages_of_chosen_validator
    (registry : gmap string (gmap string Validator)) (c : ConstraintComponent)
    (S : Shape) :
  let slots := newValidatorSlots registry c in
  let specific :=
    findValidator registry c
      (if isPropertyShape S then "propertyValidator" else "nodeValidator") in
  let chosen :=
    match specific with Some v => Some v | None => findValidator registry c "validator" end in
  (if isPropertyShape S then propertyValidationFunction slots
   else nodeValidationFunction slots)
  = (λ v, mkValidationFunction (func_name v) (parameters c)) <$> chosen
  ∧ (if isPropertyShape S then propertyValidationFunctionGeneric slots
     else nodeValidationFunctionGeneric slots)
    = match specific with Some _ => false | None => true end
  ∧ getMessages registry c slots S
    = match chosen with Some v => messageList (message v) | None => [] end
  ∧ length (getMessages registry c slots S) ≤ 1.
Proof.
  cbv zeta. destruct validatorTypeOf_sh as (Hn & Hp & Hv).
  assert (∀ m, length (messageList m) ≤ 1) as Hlen.
  { intros [[|? ?]|]; simpl; lia. }
  unfold getMessages, newValidatorSlots, resolveSlot, findValidationFunction.
  rewrite Hn, Hp, Hv.
  destruct (isPropertyShape S);
    destruct (findValidator registry c "nodeValidator") as [vn|] eqn:Hvn;
    destruct (findValidator registry c "propertyValidator") as [vp|] eqn:Hvp;
    destruct (findValidator registry c "validator") as [vg|] eqn:Hvg;
    cbn [nodeValidationFunction nodeValidationFunctionGeneric
         propertyValidationFunction propertyValidationFunctionGeneric fmap option_fmap
         option_map];
    rewrite ?Hvn, ?Hvp, ?Hvg; split_and!; try done; try apply Hlen; simpl; lia.
Qed.

(** ** The further properties on the example graphs *)

Section FurtherExamples.
Import Examples.
#[local] Existing Instance directTyping.

Example rangeComp_fields :
  parameters rangeComp = [ex "lo"; ex "hi"]
  ∧ requiredParameters rangeComp = [ex "lo"]
  ∧ isOptional rangeComp (value (ex "hi")) = true
  ∧ isOptional rangeComp (value (ex "lo")) = false.
Proof. split_and!; vm_compute; reflexivity. Qed.

Example rangeShapes_constraints :
  getConstraints (newShape id rangeShapes (parametersMap (newShapesGraph rangeShapes))
                           (ex "R"))
  = [newConstraint id (ex "R") rangeComp None rangeShapes].
Proof. by_evaluation. Qed.

Example registry_messages :
  getMessages registry twoComp (newValidatorSlots registry twoComp)
              (newShape id shapesGraph ∅ (ex "S")) = []
  ∧ getMessages registry oneComp (newValidatorSlots registry oneComp)
                (newShape id shapesGraph ∅ (ex "S")) = ["one"].
Proof. split; vm_compute; reflexivity. Qed.




Lemma toRDFQueryPath_predicates_are_IRIs_witness :
  Forall (λ x, termType x = NamedNode)
         (pathLeaves (PathZeroOrMore (PathInverse (PathPredicate (ex "knows"))))).
Proof.
  destruct (toRDFQueryPath_predicates_are_IRIs pathGraph) as [H _].
  apply (H 3 (bnode "z")). vm_compute. reflexivity.
Defined.


Lemma toRDFQueryPath_loop_never_returns_witness :
  toRDFQueryPath 5 loopPath (bnode "a") = OutOfFuel.
Proof.
  apply (toRDFQueryPath_loop_never_returns loopPath [bnode "a"; bnode "b"]);
    [|by_evaluation].
  intros t [->|[->|Ht]%elem_of_cons]%elem_of_cons.
  - exists (bnode "b"). split; [vm_compute; reflexivity|by_evaluation].
  - exists (bnode "a"). split; [vm_compute; reflexivity|by_evaluation].
  - by apply not_elem_of_nil in Ht.
Defined.
End FurtherExamples.
